(** * optimizador-rutas: the allocation engine of [App.js]

    A shallow embedding of [optimizarRutasBasico] (first-fit decreasing
    assignment of stores to vehicles) and [calcularMetricas] (the metrics
    computed over the resulting routes), with the properties the
    specification states about them.

    Numbers.  JavaScript numbers are IEEE doubles.  Finite values are
    modelled as exact rationals ([Q]); the non-finite results that the
    arithmetic of the two functions can produce (a division by zero) are
    the extra constructors of [jsnum].  Rounding error of the floating
    point operations, overflow to infinity of a sum and the sign of zero
    are not modelled.

    The statements are chosen so as not to lean on the exactness of the
    model.  Sums and quotients appear in them as the code computes them:
    a load is the sum of the demands in the order of the assignments, an
    efficiency is the quotient times 100.  The proofs use the order of
    numbers only: adding a number that is not negative does not decrease
    a sum, and an inequality is kept when the same number is added to
    both sides or both sides are divided by the same positive number.
    They do not use that a sum is independent of the order of its terms,
    nor that [(a / b) * c] is [c * a / b]. *)

From Stdlib Require Import QArith Qround Qminmax ZArith List Permutation Sorted.
From Stdlib Require Import Lia Lqa.
From Stdlib Require Import String DecimalString.
From stdpp Require Import gmap.
Import ListNotations.

Local Open Scope Q_scope.

(** ** JavaScript numbers *)

Inductive jsnum : Type :=
  | Fin (q : Q)
  | PosInf
  | NegInf
  | NaN.

(** Numeric equality of two JavaScript numbers ([NaN] is kept apart by its
    constructor: this is equality of the value, not JavaScript's [===]). *)
Definition jsnum_eq (a b : jsnum) : Prop :=
  match a, b with
  | Fin x, Fin y => x == y
  | PosInf, PosInf | NegInf, NegInf | NaN, NaN => True
  | _, _ => False
  end.

Definition Qsign_nonneg (q : Q) : bool := Qle_bool 0 q.

(** [a / b].  A zero divisor is taken as [+0]. *)
Definition js_div (a b : jsnum) : jsnum :=
  match a, b with
  | NaN, _ | _, NaN => NaN
  | Fin x, Fin y =>
      if Qeq_bool y 0
      then if Qeq_bool x 0 then NaN
           else if Qsign_nonneg x then PosInf else NegInf
      else Fin (x / y)
  | Fin _, (PosInf | NegInf) => Fin 0
  | PosInf, Fin y => if Qsign_nonneg y then PosInf else NegInf
  | NegInf, Fin y => if Qsign_nonneg y then NegInf else PosInf
  | (PosInf | NegInf), (PosInf | NegInf) => NaN
  end.

(** [a * b]. *)
Definition js_mul (a b : jsnum) : jsnum :=
  match a, b with
  | NaN, _ | _, NaN => NaN
  | Fin x, Fin y => Fin (x * y)
  | Fin x, PosInf | PosInf, Fin x =>
      if Qeq_bool x 0 then NaN else if Qsign_nonneg x then PosInf else NegInf
  | Fin x, NegInf | NegInf, Fin x =>
      if Qeq_bool x 0 then NaN else if Qsign_nonneg x then NegInf else PosInf
  | PosInf, PosInf | NegInf, NegInf => PosInf
  | PosInf, NegInf | NegInf, PosInf => NegInf
  end.

(** [a - b]. *)
Definition js_sub (a b : jsnum) : jsnum :=
  match a, b with
  | NaN, _ | _, NaN => NaN
  | Fin x, Fin y => Fin (x - y)
  | Fin _, PosInf => NegInf
  | Fin _, NegInf => PosInf
  | PosInf, Fin _ | PosInf, NegInf => PosInf
  | NegInf, Fin _ | NegInf, PosInf => NegInf
  | PosInf, PosInf | NegInf, NegInf => NaN
  end.

(** [Math.round]: the nearest integer, a half going up (towards positive
    infinity); [NaN] and the infinities are returned as they are. *)
Definition Math_round (a : jsnum) : jsnum :=
  match a with
  | Fin q => Fin (inject_Z (Qfloor (q + (1 # 2))))
  | other => other
  end.

(** [Math.ceil]. *)
Definition Math_ceil (a : jsnum) : jsnum :=
  match a with
  | Fin q => Fin (inject_Z (Qceiling q))
  | other => other
  end.

(** [Math.max] of two arguments: [NaN] as soon as one argument is. *)
Definition Math_max (a b : jsnum) : jsnum :=
  match a, b with
  | NaN, _ | _, NaN => NaN
  | PosInf, _ | _, PosInf => PosInf
  | NegInf, other | other, NegInf => other
  | Fin x, Fin y => if Qle_bool x y then Fin y else Fin x
  end.

(** ** Rows and routes *)

(** A row of [tiendas] as the optimisation endpoint selects it. *)
Record tienda : Type := mkTienda {
  t_id : string;
  codigo : string;
  nombre : string;
  combis_promedio : Q;
  provincia : string
}.

(** A row of [vehiculos]. *)
Record vehiculo : Type := mkVehiculo {
  v_id : string;
  numero_camion : Z;
  nombre_corto : string;
  tipo_pago : string;
  capacidad_combis : Q
}.

(** The object that [optimizarRutasBasico] builds for each vehicle. *)
Record ruta : Type := mkRuta {
  vehiculo_id : string;
  vehiculo_nombre : string;
  capacidad_maxima : Q;
  capacidad_usada : Q;
  tiendas : list tienda;
  eficiencia : jsnum
}.

(** The object returned by [calcularMetricas]. *)
Record metricas : Type := mkMetricas {
  eficiencia_llenado : jsnum;
  vehiculos_necesarios : nat;
  vehiculos_disponibles : nat;
  tiendas_asignadas : nat;
  tiendas_totales : nat;
  capacidad_total : Q;
  m_capacidad_usada : jsnum;
  ahorro_potencial : jsnum
}.

(** ** [Array.prototype.sort]

    The comparator returns a number: negative when its first argument goes
    first, positive when its second does, zero when the order of the two
    is kept.  ECMAScript requires the sort to be stable and leaves the
    algorithm to the engine; for a consistent comparator the result does
    not depend on it (see [stable_desc_sort_unique]).  The embedding uses a
    stable insertion sort. *)

Section ArraySort.
Context {A : Type} (cmp : A -> A -> Q).

Fixpoint sort_insert (x : A) (l : list A) : list A :=
  match l with
  | [] => [x]
  | y :: l' =>
      if Qle_bool (cmp x y) 0 then x :: y :: l'
      else y :: sort_insert x l'
  end.

Definition array_sort (l : list A) : list A :=
  fold_right sort_insert [] l.
End ArraySort.

(** ** [optimizarRutasBasico] *)

(** The comparator [(a, b) => b.combis_promedio - a.combis_promedio]. *)
Definition por_combis_desc (a b : tienda) : Q :=
  combis_promedio b - combis_promedio a.

(** [[...tiendas].sort(...)]. *)
Definition tiendasOrdenadas (ts : list tienda) : list tienda :=
  array_sort por_combis_desc ts.

(** The callback of [vehiculos.map]. *)
Definition ruta_inicial (v : vehiculo) : ruta :=
  {| vehiculo_id := v_id v;
     vehiculo_nombre := nombre_corto v;
     capacidad_maxima := capacidad_combis v;
     capacidad_usada := 0;
     tiendas := [];
     eficiencia := Fin 0 |}.

(** The test of the [if] in the inner loop. *)
Definition cabe (r : ruta) (t : tienda) : bool :=
  Qle_bool (capacidad_usada r + combis_promedio t) (capacidad_maxima r).

(** The three assignments of the [if] body. *)
Definition cargar (r : ruta) (t : tienda) : ruta :=
  let usada := capacidad_usada r + combis_promedio t in
  {| vehiculo_id := vehiculo_id r;
     vehiculo_nombre := vehiculo_nombre r;
     capacidad_maxima := capacidad_maxima r;
     capacidad_usada := usada;
     tiendas := tiendas r ++ [t];
     eficiencia :=
       js_mul (js_div (Fin usada) (Fin (capacidad_maxima r))) (Fin 100) |}.

(** [for (let ruta of rutas) { if (...) { ...; break; } }]: the routes are
    visited in order, the first one that has room is updated and the loop
    ends there. *)
Fixpoint asignar (t : tienda) (rutas : list ruta) : list ruta :=
  match rutas with
  | [] => []
  | r :: resto =>
      if cabe r t then cargar r t :: resto
      else r :: asignar t resto
  end.

(** [tiendasOrdenadas.forEach(tienda => ...)]. *)
Definition asignar_todas (ordenadas : list tienda) (rutas : list ruta)
  : list ruta :=
  fold_left (fun rs t => asignar t rs) ordenadas rutas.

(** [ruta => ruta.tiendas.length > 0]. *)
Definition no_vacia (r : ruta) : bool :=
  (0 <? List.length (tiendas r))%nat.

(** The body of the function after the sort: building the routes, the
    assignment loop and the final [rutas.filter]. *)
Definition rutas_desde (ordenadas : list tienda) (vs : list vehiculo)
  : list ruta :=
  let rutas := List.map ruta_inicial vs in
  List.filter no_vacia (asignar_todas ordenadas rutas).

Definition optimizarRutasBasico (ts : list tienda) (vs : list vehiculo)
  : list ruta :=
  rutas_desde (tiendasOrdenadas ts) vs.

(** ** [calcularMetricas] *)

Definition totalCapacidad (rutas : list ruta) : Q :=
  fold_left (fun sum r => sum + capacidad_maxima r) rutas 0.

Definition capacidadUsada (rutas : list ruta) : Q :=
  fold_left (fun sum r => sum + capacidad_usada r) rutas 0.

Definition tiendasAsignadas (rutas : list ruta) : nat :=
  fold_left (fun sum r => (sum + List.length (tiendas r))%nat) rutas 0%nat.

Definition Fin_nat (n : nat) : jsnum := Fin (inject_Z (Z.of_nat n)).

(** The object literal of the [return], from the three sums, the number
    of routes and the argument [totalTiendas]. *)
Definition metricas_de (total usada : Q) (asignadas n totalTiendas : nat)
  : metricas :=
  {| eficiencia_llenado :=
       Math_round (js_mul (js_div (Fin usada) (Fin total)) (Fin 100));
     vehiculos_necesarios := n;
     vehiculos_disponibles := n;
     tiendas_asignadas := asignadas;
     tiendas_totales := totalTiendas;
     capacidad_total := total;
     m_capacidad_usada :=
       js_div (Math_round (Fin (usada * 10))) (Fin 10);
     ahorro_potencial :=
       Math_max (Fin 0)
         (js_sub (Fin_nat n)
            (Math_ceil (js_div (Fin usada)
                          (js_div (Fin total) (Fin_nat n))))) |}.

Definition calcularMetricas (rutas : list ruta) (totalTiendas : nat)
  : metricas :=
  metricas_de (totalCapacidad rutas) (capacidadUsada rutas)
    (tiendasAsignadas rutas) (List.length rutas) totalTiendas.

(** ** What the specification says, in its own terms *)

(** The contract of a stable sort by a key in descending order: the output
    is a rearrangement of the input, no element is followed by one with a
    larger key, and the elements of equal key keep the order they had in
    the input. *)
Section StableSort.
Context {A : Type} (key : A -> Q).

Definition desc (a b : A) : Prop := key b <= key a.

Definition same_key (k : Q) (a : A) : bool := Qeq_bool (key a) k.

Record stable_desc_sort (input output : list A) : Prop := {
  sds_perm : Permutation input output;
  sds_sorted : StronglySorted desc output;
  sds_stable :
    forall k, List.filter (same_key k) output
              = List.filter (same_key k) input
}.
End StableSort.

(** A run of [optimizarRutasBasico] on an engine whose [sort] is only known
    to meet the contract above. *)
Inductive runs_to (ts : list tienda) (vs : list vehiculo)
  : list ruta -> Prop :=
  | runs_to_intro (ordenadas : list tienda) :
      stable_desc_sort combis_promedio ts ordenadas ->
      runs_to ts vs (rutas_desde ordenadas vs).

(** The bin of the specification: the capacity unit it wraps, the used
    load and the demand items assigned so far. *)
Record bin : Type := mkBin {
  cap_unit : vehiculo;
  used : Q;
  items : list tienda
}.

Definition empty_bin (v : vehiculo) : bin :=
  {| cap_unit := v; used := 0; items := [] |}.

Definition fits (t : tienda) (b : bin) : Prop :=
  used b + combis_promedio t <= capacidad_combis (cap_unit b).

#[local] Instance fits_dec (t : tienda) (b : bin) : Decision (fits t b).
Proof.
  unfold fits.
  destruct (Qlt_le_dec (capacidad_combis (cap_unit b))
                       (used b + combis_promedio t)) as [Hlt | Hle].
  - right. apply Qlt_not_le. exact Hlt.
  - left. exact Hle.
Defined.

Definition add_item (t : tienda) (b : bin) : bin :=
  {| cap_unit := cap_unit b;
     used := used b + combis_promedio t;
     items := items b ++ [t] |}.

(** Place one item: the first bin, in bin order, that it fits in receives
    it; when there is none the bins are left as they are. *)
Definition place (bins : list bin) (t : tienda) : list bin :=
  match list_find (fits t) bins with
  | Some (i, b) => <[i := add_item t b]> bins
  | None => bins
  end.

Definition ffd_allocate (sorted : list tienda) (vs : list vehiculo)
  : list bin :=
  List.filter (fun b => negb (Nat.eqb (List.length (items b)) 0))
    (fold_left place sorted (List.map empty_bin vs)).

(** What a route and a bin have in common: the identifier, name and
    capacity of the vehicle, the used load and the items. *)
Definition ruta_view (r : ruta)
  : string * string * Q * Q * list tienda :=
  (vehiculo_id r, vehiculo_nombre r, capacidad_maxima r,
   capacidad_usada r, tiendas r).

Definition bin_view (b : bin) : string * string * Q * Q * list tienda :=
  (v_id (cap_unit b), nombre_corto (cap_unit b),
   capacidad_combis (cap_unit b), used b, items b).

(** Rounding to one decimal place, a half going up. *)
Definition round_to_one_decimal (q : Q) : Q :=
  inject_Z (Qfloor (q * 10 + (1 # 2))) / 10.

(** The per-bin efficiency as the specification defines it. *)
Definition spec_efficiency (r : ruta) : Q :=
  if Qeq_bool (capacidad_maxima r) 0 then 0
  else round_to_one_decimal
         (100 * capacidad_usada r / capacidad_maxima r).

(** The fill rate as the specification defines it. *)
Definition spec_fillRate (rutas : list ruta) : Q :=
  if Qeq_bool (totalCapacidad rutas) 0 then 0
  else inject_Z (Qfloor (100 * capacidadUsada rutas / totalCapacidad rutas
                         + (1 # 2))).

(** The sum of the demands of a list of stores, added in list order. *)
Definition suma_combis (l : list tienda) : Q :=
  fold_left (fun s t => s + combis_promedio t) l 0.

(** All the stores that a list of routes holds, route by route. *)
Definition asignadas (rutas : list ruta) : list tienda :=
  List.concat (List.map tiendas rutas).

(** ** The same two functions over a heap of objects

    JavaScript arrays and objects are references.  To state what the two
    functions do to their arguments, the heap is made explicit: a finite
    map from locations to objects, threaded through a state monad whose
    failure is a read of a location that holds no object of the expected
    kind. *)

Module Heap.

Definition loc : Type := positive.

(** The fields of a route object; [o_tiendas] is a reference to the
    array created by the literal [tiendas: []]. *)
Record ruta_obj : Type := mkRutaObj {
  o_vehiculo_id : string;
  o_vehiculo_nombre : string;
  o_capacidad_maxima : Q;
  o_capacidad_usada : Q;
  o_tiendas : loc;
  o_eficiencia : jsnum
}.

Inductive obj : Type :=
  | OTienda (t : tienda)
  | OVehiculo (v : vehiculo)
  | ORuta (r : ruta_obj)
  | OArray (elems : list loc).

Abbreviation heap := (gmap loc obj).

Definition Js (A : Type) : Type := heap -> option (A * heap).

Definition ret {A : Type} (a : A) : Js A := fun h => Some (a, h).

Definition bind {A B : Type} (m : Js A) (k : A -> Js B) : Js B :=
  fun h => match m h with
           | Some (a, h') => k a h'
           | None => None
           end.

Definition fail {A : Type} : Js A := fun _ => None.

Notation "'let*' x := m 'in' k" := (bind m (fun x => k))
  (at level 10, x pattern, m at level 100, k at level 200).

(** A new object, at a location that holds nothing yet. *)
Definition alloc (o : obj) : Js loc :=
  fun h => let l := fresh (dom h) in Some (l, <[l := o]> h).

Definition read (l : loc) : Js obj :=
  fun h => match h !! l with
           | Some o => Some (o, h)
           | None => None
           end.

Definition write (l : loc) (o : obj) : Js unit :=
  fun h => match h !! l with
           | Some _ => Some (tt, <[l := o]> h)
           | None => None
           end.

Definition read_array (l : loc) : Js (list loc) :=
  let* o := read l in
  match o with OArray elems => ret elems | _ => fail end.

Definition read_tienda (l : loc) : Js tienda :=
  let* o := read l in
  match o with OTienda t => ret t | _ => fail end.

Definition read_vehiculo (l : loc) : Js vehiculo :=
  let* o := read l in
  match o with OVehiculo v => ret v | _ => fail end.

Definition read_ruta (l : loc) : Js ruta_obj :=
  let* o := read l in
  match o with ORuta r => ret r | _ => fail end.

Fixpoint mapM {A B : Type} (f : A -> Js B) (l : list A) : Js (list B) :=
  match l with
  | [] => ret []
  | a :: l' =>
      let* b := f a in
      let* bs := mapM f l' in
      ret (b :: bs)
  end.

Fixpoint forM (f : loc -> Js unit) (l : list loc) : Js unit :=
  match l with
  | [] => ret tt
  | a :: l' => let* _ := f a in forM f l'
  end.

Fixpoint filterM (p : loc -> Js bool) (l : list loc) : Js (list loc) :=
  match l with
  | [] => ret []
  | a :: l' =>
      let* keep := p a in
      let* rest := filterM p l' in
      ret (if keep then a :: rest else rest)
  end.

Fixpoint foldM {B : Type} (f : B -> loc -> Js B) (l : list loc) (acc : B)
  : Js B :=
  match l with
  | [] => ret acc
  | a :: l' => let* acc' := f acc a in foldM f l' acc'
  end.

(** [[...arr]]: a new array with the same elements. *)
Definition spread (arr : loc) : Js loc :=
  let* elems := read_array arr in
  alloc (OArray elems).

(** [arr.sort((a, b) => b.combis_promedio - a.combis_promedio)]: sorts
    the array in place and returns it.  The comparator only reads, so
    the rows are read once, before the sort. *)
Definition sort_por_combis (arr : loc) : Js loc :=
  let* elems := read_array arr in
  let* filas :=
    mapM (fun l => let* t := read_tienda l in ret (l, t)) elems in
  let ordenadas :=
    array_sort (fun a b => por_combis_desc (snd a) (snd b)) filas in
  let* _ := write arr (OArray (List.map fst ordenadas)) in
  ret arr.

(** The callback of [vehiculos.map]: two allocations, the array of the
    literal [[]] and the route object itself. *)
Definition nueva_ruta (vl : loc) : Js loc :=
  let* v := read_vehiculo vl in
  let* a := alloc (OArray []) in
  alloc (ORuta {| o_vehiculo_id := v_id v;
                  o_vehiculo_nombre := nombre_corto v;
                  o_capacidad_maxima := capacidad_combis v;
                  o_capacidad_usada := 0;
                  o_tiendas := a;
                  o_eficiencia := Fin 0 |}).

Definition array_map (f : loc -> Js loc) (arr : loc) : Js loc :=
  let* elems := read_array arr in
  let* out := mapM f elems in
  alloc (OArray out).

Definition push (arr x : loc) : Js unit :=
  let* elems := read_array arr in
  write arr (OArray (elems ++ [x])).

Definition set_capacidad_usada (q : Q) (r : ruta_obj) : ruta_obj :=
  {| o_vehiculo_id := o_vehiculo_id r;
     o_vehiculo_nombre := o_vehiculo_nombre r;
     o_capacidad_maxima := o_capacidad_maxima r;
     o_capacidad_usada := q;
     o_tiendas := o_tiendas r;
     o_eficiencia := o_eficiencia r |}.

Definition set_eficiencia (e : jsnum) (r : ruta_obj) : ruta_obj :=
  {| o_vehiculo_id := o_vehiculo_id r;
     o_vehiculo_nombre := o_vehiculo_nombre r;
     o_capacidad_maxima := o_capacidad_maxima r;
     o_capacidad_usada := o_capacidad_usada r;
     o_tiendas := o_tiendas r;
     o_eficiencia := e |}.

(** The [for ... of] loop with its [break], for the shop at [tl]. *)
Fixpoint for_rutas (tl : loc) (rutas : list loc) : Js unit :=
  match rutas with
  | [] => ret tt
  | rl :: resto =>
      let* r := read_ruta rl in
      let* t := read_tienda tl in
      if Qle_bool (o_capacidad_usada r + combis_promedio t)
                  (o_capacidad_maxima r)
      then
        let* _ := push (o_tiendas r) tl in
        let* r1 := read_ruta rl in
        let* _ :=
          write rl (ORuta (set_capacidad_usada
                             (o_capacidad_usada r1 + combis_promedio t)
                             r1)) in
        let* r2 := read_ruta rl in
        write rl (ORuta (set_eficiencia
                           (js_mul (js_div (Fin (o_capacidad_usada r2))
                                      (Fin (o_capacidad_maxima r2)))
                              (Fin 100))
                           r2))
      else for_rutas tl resto
  end.

Definition forEach (f : loc -> Js unit) (arr : loc) : Js unit :=
  let* elems := read_array arr in
  forM f elems.

(** [ruta => ruta.tiendas.length > 0]. *)
Definition con_tiendas (rl : loc) : Js bool :=
  let* r := read_ruta rl in
  let* elems := read_array (o_tiendas r) in
  ret (0 <? List.length elems)%nat.

Definition array_filter (p : loc -> Js bool) (arr : loc) : Js loc :=
  let* elems := read_array arr in
  let* keep := filterM p elems in
  alloc (OArray keep).

Definition optimizarRutasBasico (tiendas vehiculos : loc) : Js loc :=
  let* copia := spread tiendas in
  let* tiendasOrdenadas := sort_por_combis copia in
  let* rutas := array_map nueva_ruta vehiculos in
  let* _ :=
    forEach (fun tl =>
               let* rls := read_array rutas in
               for_rutas tl rls)
            tiendasOrdenadas in
  array_filter con_tiendas rutas.

Definition reduce {B : Type} (f : B -> loc -> Js B) (arr : loc) (init : B)
  : Js B :=
  let* elems := read_array arr in
  foldM f elems init.

Definition calcularMetricas (rutas : loc) (totalTiendas : nat)
  : Js metricas :=
  let* total :=
    reduce (fun sum rl =>
              let* r := read_ruta rl in
              ret (sum + o_capacidad_maxima r)) rutas 0 in
  let* usada :=
    reduce (fun sum rl =>
              let* r := read_ruta rl in
              ret (sum + o_capacidad_usada r)) rutas 0 in
  let* asignadas :=
    reduce (fun sum rl =>
              let* r := read_ruta rl in
              let* elems := read_array (o_tiendas r) in
              ret (sum + List.length elems)%nat) rutas 0%nat in
  let* elems := read_array rutas in
  ret (metricas_de total usada asignadas (List.length elems) totalTiendas).

(** *** How a heap represents the values of the pure functions *)

Definition tienda_at (h : heap) (l : loc) (t : tienda) : Prop :=
  h !! l = Some (OTienda t).

Definition vehiculo_at (h : heap) (l : loc) (v : vehiculo) : Prop :=
  h !! l = Some (OVehiculo v).

(** A cell is the pair of locations of a route object and of its array
    of shops.  The shops themselves are objects of the heap [h0] the
    function was called in. *)
Definition ruta_at (h0 h : heap) (c : loc * loc) (r : ruta) : Prop :=
  h !! fst c
  = Some (ORuta {| o_vehiculo_id := vehiculo_id r;
                   o_vehiculo_nombre := vehiculo_nombre r;
                   o_capacidad_maxima := capacidad_maxima r;
                   o_capacidad_usada := capacidad_usada r;
                   o_tiendas := snd c;
                   o_eficiencia := eficiencia r |})
  /\ exists tls, h !! snd c = Some (OArray tls)
                 /\ Forall2 (tienda_at h0) tls (tiendas r).

Definition owned (cells : list (loc * loc)) : list loc :=
  List.flat_map (fun c => [fst c; snd c]) cells.

(** The array at [res] holds routes that represent [rs]; the array, the
    route objects and their arrays of stores are all objects that did
    not exist in [h0]. *)
Definition rutas_at (h0 h : heap) (res : loc) (rs : list ruta) : Prop :=
  exists cells,
    h !! res = Some (OArray (List.map fst cells))
    /\ Forall2 (ruta_at h0 h) cells rs
    /\ Forall (fun l => h0 !! l = None) (res :: owned cells).

End Heap.

(** ** Invariants of a route and sample data *)

(** A route that holds a store is within its capacity. *)
Definition dentro_de_capacidad (r : ruta) : Prop :=
  tiendas r = [] \/ capacidad_usada r <= capacidad_maxima r.

(** The value that the last assignment to [ruta.eficiencia] computes. *)
Definition eficiencia_de (r : ruta) : jsnum :=
  js_mul (js_div (Fin (capacidad_usada r)) (Fin (capacidad_maxima r)))
         (Fin 100).

Definition eficiencia_al_dia (r : ruta) : Prop :=
  tiendas r = [] \/ eficiencia r = eficiencia_de r.

Definition ej_tienda (name : string) (combis : Q) : tienda :=
  {| t_id := name; codigo := name; nombre := name;
     combis_promedio := combis; provincia := EmptyString |}.

Definition ej_vehiculo (name : string) (capacidad : Q) : vehiculo :=
  {| v_id := name; numero_camion := 1; nombre_corto := name;
     tipo_pago := "por_combi"; capacidad_combis := capacidad |}.

(** The two-bin example: demands 8, 5, 5, 2 and two vehicles of 10. *)
Definition ej_tiendas : list tienda :=
  [ej_tienda "s1" 8; ej_tienda "s2" 5; ej_tienda "s3" 5; ej_tienda "s4" 2].

Definition ej_vehiculos : list vehiculo :=
  [ej_vehiculo "A" 10; ej_vehiculo "B" 10].

(** A heap with an array of two shops at 1, an array of one vehicle at
    2, the three rows at 3, 4 and 5, and an empty array at 6. *)
Definition ej_heap : Heap.heap :=
  <[1%positive := Heap.OArray [3%positive; 4%positive]]>
  (<[2%positive := Heap.OArray [5%positive]]>
  (<[3%positive := Heap.OTienda (ej_tienda "s1" 2)]>
  (<[4%positive := Heap.OTienda (ej_tienda "s2" 5)]>
  (<[5%positive := Heap.OVehiculo (ej_vehiculo "A" 10)]>
  (<[6%positive := Heap.OArray []]> ∅))))).

(** The stores of the two-bin example in another order. *)
Definition ej_desordenadas : list tienda :=
  [ej_tienda "s4" 2; ej_tienda "s2" 5; ej_tienda "s1" 8; ej_tienda "s3" 5].

(** ** The optimisation endpoint

    [app.post('/api/optimizar', ...)].  The two queries are the work of
    the database: their results are arguments, [None] standing for a
    query that is rejected (the [catch] answers 500).  The handler hands
    the rows to [optimizarRutasBasico] and [calcularMetricas] as the
    driver delivers them, and the driver delivers the [DECIMAL] column
    [combis_promedio] as text, not as a number.  So the handler is stated
    over any representation of the rows and of the routes, with the two
    functions it calls as arguments; [optimizarRutasBasico] and
    [calcularMetricas] above are those functions on rows whose demand is
    a number.  The time stamp is an argument as well. *)

Section ApiOptimizar.
Context {FilaVehiculo FilaTienda Rutas Metricas : Type}.
Variable optimizar : list FilaTienda -> list FilaVehiculo -> Rutas.
Variable metricas_de_rutas : Rutas -> nat -> Metricas.

Inductive cuerpo : Type :=
  | CuerpoOptimizacion (rutas : Rutas) (m : Metricas)
      (proveedor_id : option string) (timestamp : string)
  | CuerpoError (error : string).

Record respuesta : Type := mkRespuesta {
  status : nat;
  body : cuerpo
}.

Definition api_optimizar (proveedor_id : option string)
    (vehiculosResult : option (list FilaVehiculo))
    (tiendasResult : option (list FilaTienda)) (ahora : string)
  : respuesta :=
  match vehiculosResult, tiendasResult with
  | Some vehiculos, Some tiendas =>
      if (Nat.eqb (List.length vehiculos) 0
          || Nat.eqb (List.length tiendas) 0)%bool
      then {| status := 400;
              body := CuerpoError
                "No se encontraron vehículos o tiendas para este proveedor" |}
      else
        let rutasOptimizadas := optimizar tiendas vehiculos in
        let m := metricas_de_rutas rutasOptimizadas (List.length tiendas) in
        {| status := 200;
           body := CuerpoOptimizacion rutasOptimizadas m proveedor_id ahora |}
  | _, _ =>
      {| status := 500;
         body := CuerpoError "Error en la optimización de rutas" |}
  end.

End ApiOptimizar.

(** What a route keeps of its vehicle, and the same three fields of a
    vehicle row. *)
Definition vehiculo_de (r : ruta) : string * string * Q :=
  (vehiculo_id r, vehiculo_nombre r, capacidad_maxima r).

Definition datos_vehiculo (v : vehiculo) : string * string * Q :=
  (v_id v, nombre_corto v, capacidad_combis v).

(** ** What [OptimizationResults] shows

    The response travels as JSON: [JSON.stringify] writes [null] for
    [NaN] and for the infinities, and the client reads back a number or
    [null]. *)

Definition por_json (a : jsnum) : option Q :=
  match a with
  | Fin q => Some q
  | _ => None
  end.

(** [Number(x || 0)] for [x] a number or [null]: [null] and [0] are
    falsy. *)
Definition numero_o_cero (x : option Q) : Q :=
  match x with
  | Some q => if Qeq_bool q 0 then 0 else q
  | None => 0
  end.


(** [Number(ruta.eficiencia || 0)], the number handed to [toFixed(1)]. *)
Definition llenado_mostrado (r : ruta) : Q :=
  numero_o_cero (por_json (eficiencia r)).

(** [Math.min(100, Number(ruta.eficiencia || 0))], the width of the bar
    in percent. *)
Definition ancho_barra (r : ruta) : Q :=
  Qmin 100 (llenado_mostrado r).

(** ** Activating a scenario

    [app.put('/api/escenarios/:id/activar', ...)].  The table
    [escenarios] is a list of rows; the two [UPDATE] statements run one
    after the other, outside any transaction, and each may be rejected by
    the database (the second one is, for instance, when [id] is not the
    text of a UUID). *)

Record escenario : Type := mkEscenario {
  e_id : string;
  e_nombre : string;
  e_descripcion : string;
  e_configuracion : string;
  e_metricas : string;
  e_activo : bool;
  e_created_at : string
}.

Definition set_activo (b : bool) (e : escenario) : escenario :=
  {| e_id := e_id e;
     e_nombre := e_nombre e;
     e_descripcion := e_descripcion e;
     e_configuracion := e_configuracion e;
     e_metricas := e_metricas e;
     e_activo := b;
     e_created_at := e_created_at e |}.

(** [UPDATE escenarios SET activo = false]. *)
Definition desactivar_todos (tabla : list escenario) : list escenario :=
  List.map (set_activo false) tabla.

(** [UPDATE escenarios SET activo = true WHERE id = $1 RETURNING *]: the
    table after the update, and the rows returned. *)
Definition activar_donde_id (id : string) (tabla : list escenario)
  : list escenario * list escenario :=
  (List.map (fun e => if String.eqb (e_id e) id then set_activo true e
                      else e) tabla,
   List.map (set_activo true)
     (List.filter (fun e => String.eqb (e_id e) id) tabla)).

Inductive cuerpo_escenario : Type :=
  | CuerpoFila (fila : option escenario)
  | CuerpoErrorEscenario (error : string).

(** The handler: the table afterwards, the status and the body.  The body
    of a 200 is [result.rows[0]], which is [undefined] when no row was
    updated. *)
Definition api_activar_escenario (id : string)
    (falla_primera falla_segunda : bool) (tabla : list escenario)
  : list escenario * nat * cuerpo_escenario :=
  if falla_primera
  then (tabla, 500%nat, CuerpoErrorEscenario "Error al activar escenario")
  else
    let tabla1 := desactivar_todos tabla in
    if falla_segunda
    then (tabla1, 500%nat, CuerpoErrorEscenario "Error al activar escenario")
    else
      let '(tabla2, rows) := activar_donde_id id tabla1 in
      (tabla2, 200%nat, CuerpoFila (List.head rows)).

Definition ej_escenario (id : string) (activo : bool) : escenario :=
  {| e_id := id; e_nombre := id; e_descripcion := EmptyString;
     e_configuracion := "{}"; e_metricas := "{}";
     e_activo := activo; e_created_at := EmptyString |}.

(** ** The state of the page and the calls that change it

    The component keeps its state in variables set with [setX(...)]; a
    handler is a function from the state before to the state after, given
    what [fetch] does: it rejects with an error, or it resolves with a
    response, whose [json()] gives a value or rejects in turn. *)

Inductive resultado_fetch (A : Type) : Type :=
  | FetchRechazado (message : string)
  | FetchRespuesta (status : nat) (json : string + A).

Arguments FetchRechazado {A} message.
Arguments FetchRespuesta {A} status json.

(** [response.ok]: the status is in the range 200 to 299. *)
Definition response_ok (status : nat) : bool :=
  ((200 <=? status) && (status <=? 299))%nat%bool.

(** The digits of a status code, as a template literal writes them. *)
Definition digitos (n : nat) : string :=
  NilEmpty.string_of_uint (Nat.to_uint n).

(** The body of the answer of the import endpoint, as an object whose
    properties may be missing. *)
Record cuerpo_import : Type := mkCuerpoImport {
  vehiculos_importados : option nat;
  tiendas_importadas : option nat;
  errores : option (list string);
  error_import : option string
}.

Section Pagina.
Context {Proveedores Vehiculos Resultado : Type}.

Record estado : Type := mkEstado {
  proveedores : Proveedores;
  vehiculos : Vehiculos;
  optimizationResult : option Resultado;
  loading : bool;
  error : option string;
  uploadResult : option cuerpo_import
}.

Definition setProveedores (x : Proveedores) (s : estado) : estado :=
  {| proveedores := x; vehiculos := vehiculos s;
     optimizationResult := optimizationResult s; loading := loading s;
     error := error s; uploadResult := uploadResult s |}.

Definition setVehiculos (x : Vehiculos) (s : estado) : estado :=
  {| proveedores := proveedores s; vehiculos := x;
     optimizationResult := optimizationResult s; loading := loading s;
     error := error s; uploadResult := uploadResult s |}.

Definition setOptimizationResult (x : Resultado) (s : estado) : estado :=
  {| proveedores := proveedores s; vehiculos := vehiculos s;
     optimizationResult := Some x; loading := loading s;
     error := error s; uploadResult := uploadResult s |}.

Definition setLoading (b : bool) (s : estado) : estado :=
  {| proveedores := proveedores s; vehiculos := vehiculos s;
     optimizationResult := optimizationResult s; loading := b;
     error := error s; uploadResult := uploadResult s |}.

Definition setError (message : string) (s : estado) : estado :=
  {| proveedores := proveedores s; vehiculos := vehiculos s;
     optimizationResult := optimizationResult s; loading := loading s;
     error := Some message; uploadResult := uploadResult s |}.

Definition setUploadResult (x : cuerpo_import) (s : estado) : estado :=
  {| proveedores := proveedores s; vehiculos := vehiculos s;
     optimizationResult := optimizationResult s; loading := loading s;
     error := error s; uploadResult := Some x |}.

(** [apiCall]: the data, or the message of the error it throws again
    after [setError]. *)
Definition apiCall {A : Type} (r : resultado_fetch A) (s : estado)
  : (string + A) * estado :=
  match r with
  | FetchRechazado message => (inl message, setError message s)
  | FetchRespuesta st json =>
      if response_ok st
      then match json with
           | inr data => (inr data, s)
           | inl message => (inl message, setError message s)
           end
      else
        let message := ("HTTP error! status: " ++ digitos st)%string in
        (inl message, setError message s)
  end.

Definition loadProveedores (r : resultado_fetch Proveedores) (s : estado)
  : estado :=
  let s1 := setLoading true s in
  let s2 := match apiCall r s1 with
            | (inr data, s') => setProveedores data s'
            | (inl _, s') => s'
            end in
  setLoading false s2.

Definition loadVehiculos (r : resultado_fetch Vehiculos) (s : estado)
  : estado :=
  match apiCall r s with
  | (inr data, s') => setVehiculos data s'
  | (inl _, s') => s'
  end.

Definition optimizarRutas (r : resultado_fetch Resultado) (s : estado)
  : estado :=
  let s1 := setLoading true s in
  let s2 := match apiCall r s1 with
            | (inr result, s') => setOptimizationResult result s'
            | (inl _, s') => s'
            end in
  setLoading false s2.

(** [handleFileUpload]: [uploadFile] says whether a file is selected; the
    upload uses [fetch] itself and does not look at the status. *)
Definition handleFileUpload (uploadFile : bool)
    (r : resultado_fetch cuerpo_import)
    (rv : resultado_fetch Vehiculos) (rp : resultado_fetch Proveedores)
    (s : estado) : estado :=
  if uploadFile then
    let s1 := setLoading true s in
    let s2 := match r with
              | FetchRespuesta _ (inr result) =>
                  loadProveedores rp
                    (loadVehiculos rv (setUploadResult result s1))
              | FetchRespuesta _ (inl _) => s1
              | FetchRechazado _ => s1
              end in
    setLoading false s2
  else s.

End Pagina.

Arguments estado : clear implicits.

(** The note under the import button: the two counts and, when there are
    errors, their number. *)
Record aviso_import : Type := mkAviso {
  vehiculos_mostrados : nat;
  tiendas_mostradas : nat;
  linea_errores : option nat
}.

(** [{uploadResult && (...)}]: nothing while there is no result. *)
Definition aviso (u : option cuerpo_import) : option aviso_import :=
  match u with
  | None => None
  | Some b =>
      let n := List.length (default [] (errores b)) in
      Some {| vehiculos_mostrados := default 0%nat (vehiculos_importados b);
              tiendas_mostradas := default 0%nat (tiendas_importadas b);
              linea_errores := if (0 <? n)%nat then Some n else None |}
  end.

(** * Properties *)

(** ** The sort *)

Section StableSortFacts.
Context {A : Type} (key : A -> Q).

Local Abbreviation cmp := (fun a b : A => key b - key a).

Lemma cmp_nonpos_iff (a b : A) :
  Qle_bool (key b - key a) 0 = true <-> key b <= key a.
Proof. rewrite Qle_bool_iff. split; intros H; lra. Qed.

Lemma same_key_refl (a : A) : same_key key (key a) a = true.
Proof. unfold same_key. apply Qeq_bool_refl. Qed.

Lemma sort_insert_perm (x : A) (l : list A) :
  Permutation (x :: l) (sort_insert cmp x l).
Proof.
  induction l as [| y l IH]; simpl.
  - apply Permutation_refl.
  - destruct (Qle_bool (key y - key x) 0).
    + apply Permutation_refl.
    + eapply perm_trans; [apply perm_swap |].
      apply perm_skip. exact IH.
Qed.

Lemma array_sort_perm (l : list A) : Permutation l (array_sort cmp l).
Proof.
  induction l as [| x l IH]; simpl.
  - apply perm_nil.
  - eapply perm_trans; [apply perm_skip; exact IH |].
    apply sort_insert_perm.
Qed.

Lemma sort_insert_sorted (x : A) (l : list A) :
  StronglySorted (desc key) l ->
  StronglySorted (desc key) (sort_insert cmp x l).
Proof.
  induction 1 as [| y l Hs IH Hy]; simpl.
  - constructor; constructor.
  - destruct (Qle_bool (key y - key x) 0) eqn:E.
    + apply cmp_nonpos_iff in E.
      constructor; [constructor; assumption |].
      constructor; [exact E |].
      eapply List.Forall_impl; [| exact Hy].
      intros z Hz. unfold desc in *. lra.
    + assert (Hxy : key x <= key y).
      { destruct (Qlt_le_dec (key x) (key y)) as [Hlt | Hle].
        - apply Qlt_le_weak. exact Hlt.
        - apply cmp_nonpos_iff in Hle. congruence. }
      constructor; [exact IH |].
      eapply Permutation_Forall; [apply sort_insert_perm |].
      constructor; assumption.
Qed.

Lemma array_sort_sorted (l : list A) :
  StronglySorted (desc key) (array_sort cmp l).
Proof.
  induction l as [| x l IH]; simpl.
  - constructor.
  - apply sort_insert_sorted. exact IH.
Qed.

(** Inserting [x] moves it past larger keys only, so it overtakes no
    element of its own key. *)
Lemma filter_sort_insert (k : Q) (x : A) (l : list A) :
  List.filter (same_key key k) (sort_insert cmp x l)
  = List.filter (same_key key k) (x :: l).
Proof.
  induction l as [| y l IH]; [reflexivity |].
  cbn [sort_insert].
  destruct (Qle_bool (key y - key x) 0) eqn:E; [reflexivity |].
  cbn [List.filter] in *. rewrite IH.
  destruct (same_key key k y) eqn:Ey, (same_key key k x) eqn:Ex;
    try reflexivity.
  exfalso. unfold same_key in Ey, Ex.
  apply Qeq_bool_iff in Ey. apply Qeq_bool_iff in Ex.
  assert (Hle : key y <= key x) by lra.
  apply cmp_nonpos_iff in Hle. congruence.
Qed.

Lemma array_sort_stable (k : Q) (l : list A) :
  List.filter (same_key key k) (array_sort cmp l)
  = List.filter (same_key key k) l.
Proof.
  induction l as [| x l IH]; [reflexivity |].
  cbn [array_sort fold_right].
  rewrite filter_sort_insert. cbn [List.filter].
  fold (array_sort cmp l). rewrite IH. reflexivity.
Qed.

Lemma array_sort_contract (l : list A) :
  stable_desc_sort key l (array_sort cmp l).
Proof.
  constructor.
  - apply array_sort_perm.
  - apply array_sort_sorted.
  - intros k. apply array_sort_stable.
Qed.

Lemma filter_head_in (k : Q) (a : A) (rest l : list A) :
  List.filter (same_key key k) l = a :: rest -> In a l.
Proof.
  intros H.
  assert (Hin : In a (List.filter (same_key key k) l))
    by (rewrite H; left; reflexivity).
  apply filter_In in Hin. tauto.
Qed.

(** Two sorted lists with the same elements of each key, in the same
    order, are the same list. *)
Lemma sorted_same_filters (o1 : list A) :
  forall o2 : list A,
    StronglySorted (desc key) o1 ->
    StronglySorted (desc key) o2 ->
    (forall k, List.filter (same_key key k) o1
               = List.filter (same_key key k) o2) ->
    o1 = o2.
Proof.
  induction o1 as [| a r1 IH]; intros [| b r2] S1 S2 Hf.
  - reflexivity.
  - specialize (Hf (key b)). cbn in Hf.
    rewrite same_key_refl in Hf. discriminate.
  - specialize (Hf (key a)). cbn in Hf.
    rewrite same_key_refl in Hf. discriminate.
  - inversion S1 as [| ? ? S1' F1]; subst.
    inversion S2 as [| ? ? S2' F2]; subst.
    destruct (Qeq_bool (key a) (key b)) eqn:E.
    + assert (Hab : a = b).
      { pose proof (Hf (key b)) as Hk. cbn in Hk.
        rewrite same_key_refl in Hk.
        change (same_key key (key b) a = true) in E.
        rewrite E in Hk. congruence. }
      subst b. f_equal. apply IH; try assumption.
      intros k. specialize (Hf k). cbn in Hf.
      destruct (same_key key k a); congruence.
    + exfalso.
      assert (Hba : Qeq_bool (key b) (key a) = false).
      { destruct (Qeq_bool (key b) (key a)) eqn:E'; [| reflexivity].
        apply Qeq_bool_iff in E'. symmetry in E'.
        apply Qeq_bool_iff in E'. congruence. }
      assert (H1 : key a <= key b).
      { pose proof (Hf (key a)) as Hk. cbn in Hk.
        rewrite same_key_refl in Hk.
        change (same_key key (key a) b = false) in Hba.
        rewrite Hba in Hk. symmetry in Hk. apply filter_head_in in Hk.
        rewrite List.Forall_forall in F2. exact (F2 a Hk). }
      assert (H2 : key b <= key a).
      { pose proof (Hf (key b)) as Hk. cbn in Hk.
        rewrite same_key_refl in Hk.
        change (same_key key (key b) a = false) in E.
        rewrite E in Hk. apply filter_head_in in Hk.
        rewrite List.Forall_forall in F1. exact (F1 b Hk). }
      assert (Heq : key a == key b) by lra.
      apply Qeq_bool_iff in Heq. congruence.
Qed.

Lemma stable_desc_sort_unique (l o1 o2 : list A) :
  stable_desc_sort key l o1 -> stable_desc_sort key l o2 -> o1 = o2.
Proof.
  intros [_ S1 F1] [_ S2 F2].
  apply sorted_same_filters; try assumption.
  intros k. rewrite F1, F2. reflexivity.
Qed.

End StableSortFacts.

(** ** Invariants of the assignment loop *)

Section LoopInvariant.
Variable P : ruta -> Prop.
Hypothesis P_cargar : forall r t, P r -> cabe r t = true -> P (cargar r t).

Lemma asignar_Forall (t : tienda) (rs : list ruta) :
  Forall P rs -> Forall P (asignar t rs).
Proof.
  induction 1 as [| r rs Hr Hrs IH]; simpl.
  - constructor.
  - destruct (cabe r t) eqn:E.
    + constructor; [apply P_cargar; assumption | assumption].
    + constructor; assumption.
Qed.

Lemma asignar_todas_Forall (l : list tienda) :
  forall rs, Forall P rs -> Forall P (asignar_todas l rs).
Proof.
  unfold asignar_todas.
  induction l as [| t l IH]; intros rs H; simpl.
  - exact H.
  - apply IH. apply asignar_Forall. exact H.
Qed.

Hypothesis P_inicial : forall v, P (ruta_inicial v).

Lemma rutas_desde_Forall (l : list tienda) (vs : list vehiculo) :
  Forall P (rutas_desde l vs).
Proof.
  unfold rutas_desde.
  apply List.Forall_forall. intros r Hr.
  apply filter_In in Hr. destruct Hr as [Hr _].
  revert r Hr. apply List.Forall_forall.
  apply asignar_todas_Forall.
  apply List.Forall_forall. intros r Hr.
  apply in_map_iff in Hr. destruct Hr as [v [<- _]].
  apply P_inicial.
Qed.

End LoopInvariant.

Lemma rutas_desde_no_vacia (l : list tienda) (vs : list vehiculo) :
  Forall (fun r => tiendas r <> []) (rutas_desde l vs).
Proof.
  apply List.Forall_forall. intros r Hr.
  apply filter_In in Hr. destruct Hr as [_ Hr].
  unfold no_vacia in Hr. intros E. rewrite E in Hr. discriminate.
Qed.

Lemma rutas_desde_dentro (l : list tienda) (vs : list vehiculo) :
  Forall dentro_de_capacidad (rutas_desde l vs).
Proof.
  apply rutas_desde_Forall.
  - intros r t _ E. right. unfold cabe in E.
    apply Qle_bool_iff in E. exact E.
  - intros v. left. reflexivity.
Qed.

Lemma rutas_desde_suma (l : list tienda) (vs : list vehiculo) :
  Forall (fun r => capacidad_usada r = suma_combis (tiendas r))
         (rutas_desde l vs).
Proof.
  apply rutas_desde_Forall.
  - intros r t H _. unfold suma_combis in *. cbn [cargar tiendas capacidad_usada].
    rewrite fold_left_app. cbn [fold_left]. rewrite <- H. reflexivity.
  - intros v. reflexivity.
Qed.

Lemma rutas_desde_eficiencia (l : list tienda) (vs : list vehiculo) :
  Forall eficiencia_al_dia (rutas_desde l vs).
Proof.
  apply rutas_desde_Forall.
  - intros r t _ _. right. reflexivity.
  - intros v. left. reflexivity.
Qed.

(** C1.  Capacity invariant: in every route that [optimizarRutasBasico]
    returns, the used load [capacidad_usada] is at most the capacity
    [capacidad_maxima] of its vehicle.  It holds for all inputs, hence for
    those with non-negative demands and capacities. *)
Theorem capacity_invariant (ts : list tienda) (vs : list vehiculo) :
  Forall (fun r => capacidad_usada r <= capacidad_maxima r)
         (optimizarRutasBasico ts vs).
Proof.
  unfold optimizarRutasBasico.
  pose proof (rutas_desde_dentro (tiendasOrdenadas ts) vs) as Hd.
  pose proof (rutas_desde_no_vacia (tiendasOrdenadas ts) vs) as Hn.
  rewrite List.Forall_forall in *. intros r Hr.
  destruct (Hd r Hr) as [E | Hle]; [| exact Hle].
  exfalso. exact (Hn r Hr E).
Qed.

(** C10.  In every route returned, the used load is exactly the sum of the
    demands of the stores of the route, added in the order of the list. *)
Theorem used_load_is_sum_of_demands (ts : list tienda) (vs : list vehiculo) :
  Forall (fun r => capacidad_usada r = suma_combis (tiendas r))
         (optimizarRutasBasico ts vs).
Proof. apply rutas_desde_suma. Qed.

(** ** Efficiency of a route and fill rate *)

Lemma eficiencia_de_nonzero (r : ruta) :
  ~ capacidad_maxima r == 0 ->
  eficiencia_de r = Fin (capacidad_usada r / capacidad_maxima r * 100).
Proof.
  intros Hc. unfold eficiencia_de, js_div.
  destruct (Qeq_bool (capacidad_maxima r) 0) eqn:E.
  - apply Qeq_bool_iff in E. contradiction.
  - reflexivity.
Qed.

(** C4, as the code has it.  In every route returned whose capacity is not
    zero, the field [eficiencia] is the value of
    [(capacidad_usada / capacidad_maxima) * 100] at the final used load
    of the route: the quotient first, then the product, not rounded. *)
Theorem eficiencia_unrounded (ts : list tienda) (vs : list vehiculo)
    (r : ruta) :
  In r (optimizarRutasBasico ts vs) ->
  ~ capacidad_maxima r == 0 ->
  eficiencia r = Fin (capacidad_usada r / capacidad_maxima r * 100).
Proof.
  intros Hr Hc. unfold optimizarRutasBasico in Hr.
  pose proof (rutas_desde_eficiencia (tiendasOrdenadas ts) vs) as He.
  pose proof (rutas_desde_no_vacia (tiendasOrdenadas ts) vs) as Hn.
  rewrite List.Forall_forall in *.
  destruct (He r Hr) as [E | E].
  - exfalso. exact (Hn r Hr E).
  - rewrite E. apply eficiencia_de_nonzero. exact Hc.
Qed.

Lemma eficiencia_unrounded_witness :
  In (cargar (ruta_inicial (ej_vehiculo "A" 3)) (ej_tienda "s1" 1))
     (optimizarRutasBasico [ej_tienda "s1" 1] [ej_vehiculo "A" 3])
  /\ eficiencia (cargar (ruta_inicial (ej_vehiculo "A" 3))
                        (ej_tienda "s1" 1))
     = Fin ((0 + 1) / 3 * 100).
Proof.
  split.
  - left. reflexivity.
  - apply (eficiencia_unrounded [ej_tienda "s1" 1] [ej_vehiculo "A" 3]).
    + left. reflexivity.
    + cbn. discriminate.
Defined.

(** C4, as the specification has it, fails: with one store of demand 1
    and one vehicle of capacity 3 the field is 100/3, not 33.3. *)
Lemma eficiencia_not_rounded :
  ~ (forall r,
        In r (optimizarRutasBasico [ej_tienda "s1" 1] [ej_vehiculo "A" 3]) ->
        jsnum_eq (eficiencia r) (Fin (spec_efficiency r))).
Proof.
  intros H.
  specialize (H _ (or_introl eq_refl)).
  vm_compute in H. discriminate H.
Qed.

(** With a vehicle of capacity 0 and a store of demand 0, the store is
    assigned and the field is the result of 0/0. *)
Lemma eficiencia_zero_capacity :
  List.map eficiencia
    (optimizarRutasBasico [ej_tienda "s1" 0] [ej_vehiculo "A" 0])
  = [NaN].
Proof. reflexivity. Qed.


(** C3.  When no store fits in any vehicle, [optimizarRutasBasico]
    returns no route and [calcularMetricas] divides 0 by 0: the fill rate
    [eficiencia_llenado] is [NaN], where the specification defines 0. *)
Theorem fill_rate_without_routes :
  optimizarRutasBasico [ej_tienda "s1" 100] [ej_vehiculo "A" 63] = []
  /\ eficiencia_llenado
       (calcularMetricas
          (optimizarRutasBasico [ej_tienda "s1" 100] [ej_vehiculo "A" 63]) 1)
     = NaN
  /\ spec_fillRate [] == 0.
Proof. repeat split. Qed.

(** ** The two-bin example *)

(** C5.  Demands 8, 5, 5, 2 and capacities 10, 10: vehicle A holds the
    stores of demand 8 and 2, vehicle B those of demand 5 and 5, both with
    used load 10; the metrics give fill rate 100, 2 vehicles and 4 stores
    assigned. *)
Theorem two_bin_example :
  List.map (fun r => (vehiculo_id r,
                      List.map t_id (tiendas r),
                      List.map combis_promedio (tiendas r),
                      capacidad_usada r))
           (optimizarRutasBasico ej_tiendas ej_vehiculos)
  = [("A"%string, ["s1"%string; "s4"%string], [8; 2], 10);
     ("B"%string, ["s2"%string; "s3"%string], [5; 5], 10)]
  /\ (let m := calcularMetricas
                 (optimizarRutasBasico ej_tiendas ej_vehiculos) 4 in
      eficiencia_llenado m = Fin 100
      /\ vehiculos_necesarios m = 2%nat
      /\ tiendas_asignadas m = 4%nat).
Proof. repeat split. Qed.

(** ** No vehicles *)

Lemma asignar_todas_nil (l : list tienda) : asignar_todas l [] = [].
Proof.
  unfold asignar_todas. induction l as [| t l IH]; simpl; [reflexivity |].
  exact IH.
Qed.

Lemma optimizar_sin_vehiculos (ts : list tienda) :
  optimizarRutasBasico ts [] = [].
Proof.
  unfold optimizarRutasBasico, rutas_desde. cbn [List.map].
  rewrite asignar_todas_nil. reflexivity.
Qed.


(** ** Every store is assigned at most once *)

Lemma asignadas_cons (r : ruta) (rs : list ruta) :
  asignadas (r :: rs) = tiendas r ++ asignadas rs.
Proof. reflexivity. Qed.

(** One pass of the inner loop either changes nothing or adds the store to
    the stores assigned so far. *)
Lemma asignar_asignadas (t : tienda) (rs : list ruta) :
  asignar t rs = rs
  \/ Permutation (asignadas (asignar t rs)) (t :: asignadas rs).
Proof.
  induction rs as [| r rs IH]; simpl.
  - left. reflexivity.
  - destruct (cabe r t).
    + right. rewrite !asignadas_cons. cbn [cargar tiendas].
      rewrite <- List.app_assoc. cbn [List.app].
      apply Permutation_sym.
      apply (Permutation_middle (tiendas r) (asignadas rs) t).
    + destruct IH as [IH | IH].
      * left. rewrite IH. reflexivity.
      * right. rewrite !asignadas_cons.
        eapply perm_trans; [apply Permutation_app_head; exact IH |].
        apply Permutation_sym.
        apply (Permutation_middle (tiendas r) (asignadas rs) t).
Qed.

Lemma asignar_todas_asignadas (l : list tienda) :
  forall rs,
    exists rest,
      Permutation (asignadas (asignar_todas l rs) ++ rest)
                  (asignadas rs ++ l).
Proof.
  unfold asignar_todas.
  induction l as [| t l IH]; intros rs; cbn [fold_left].
  - exists []. reflexivity.
  - destruct (IH (asignar t rs)) as [rest Hrest].
    destruct (asignar_asignadas t rs) as [E | Hp].
    + rewrite E in *. exists (t :: rest).
      eapply perm_trans; [apply Permutation_sym, Permutation_middle |].
      eapply perm_trans; [apply perm_skip; exact Hrest |].
      apply Permutation_middle.
    + exists rest.
      eapply perm_trans; [exact Hrest |].
      eapply perm_trans; [apply Permutation_app_tail; exact Hp |].
      cbn [List.app]. apply Permutation_middle.
Qed.

Lemma asignadas_filter (rs : list ruta) :
  asignadas (List.filter no_vacia rs) = asignadas rs.
Proof.
  induction rs as [| r rs IH]; [reflexivity |].
  cbn [List.filter]. rewrite asignadas_cons.
  destruct (no_vacia r) eqn:E.
  - rewrite asignadas_cons, IH. reflexivity.
  - rewrite IH. unfold no_vacia in E.
    destruct (tiendas r); [reflexivity | discriminate].
Qed.

Lemma asignadas_inicial (vs : list vehiculo) :
  asignadas (List.map ruta_inicial vs) = [].
Proof. induction vs as [| v vs IH]; [reflexivity | exact IH]. Qed.

Lemma rutas_desde_asignadas (l : list tienda) (vs : list vehiculo) :
  exists rest, Permutation (asignadas (rutas_desde l vs) ++ rest) l.
Proof.
  unfold rutas_desde. rewrite asignadas_filter.
  destruct (asignar_todas_asignadas l (List.map ruta_inicial vs))
    as [rest H].
  rewrite asignadas_inicial in H. exists rest. exact H.
Qed.

(** C6.  The stores of all the routes returned, taken together, are part
    of the input list, occurrence by occurrence: with the stores left
    unassigned they make up a rearrangement of the input.  So no store of
    the input is in two routes, or twice in one, and a store is either in
    a route as a whole or in none. *)
Theorem each_store_in_at_most_one_route (ts : list tienda)
    (vs : list vehiculo) :
  (exists unassigned,
      Permutation (asignadas (optimizarRutasBasico ts vs) ++ unassigned) ts)
  /\ (List.NoDup ts ->
      List.NoDup (asignadas (optimizarRutasBasico ts vs))).
Proof.
  unfold optimizarRutasBasico.
  destruct (rutas_desde_asignadas (tiendasOrdenadas ts) vs) as [rest H].
  assert (Hts : Permutation
                  (asignadas (rutas_desde (tiendasOrdenadas ts) vs) ++ rest)
                  ts).
  { eapply perm_trans; [exact H |].
    apply Permutation_sym. apply array_sort_perm. }
  split.
  - exists rest. exact Hts.
  - intros Hnd.
    apply (List.NoDup_app_remove_r _ rest).
    eapply Permutation.Permutation_NoDup; [apply Permutation_sym; exact Hts | exact Hnd].
Qed.

Lemma each_store_in_at_most_one_route_witness :
  List.NoDup ej_tiendas
  /\ List.NoDup (asignadas (optimizarRutasBasico ej_tiendas ej_vehiculos)).
Proof.
  assert (Hnd : List.NoDup ej_tiendas).
  { unfold ej_tiendas.
    repeat (apply List.NoDup_cons; [cbn; intuition discriminate |]).
    apply List.NoDup_nil. }
  split; [exact Hnd |].
  apply (each_store_in_at_most_one_route ej_tiendas ej_vehiculos).
  exact Hnd.
Defined.

(** ** First-fit decreasing *)

(** The placement of the specification, bin by bin. *)
Lemma place_cons (t : tienda) (b : bin) (bins : list bin) :
  place (b :: bins) t
  = if decide (fits t b) then add_item t b :: bins
    else b :: place bins t.
Proof.
  unfold place. cbn [list_find].
  destruct (decide (fits t b)); [reflexivity |].
  destruct (list_find (fits t) bins) as [[i b'] |]; reflexivity.
Qed.

Lemma cabe_fits (r : ruta) (b : bin) (t : tienda) :
  ruta_view r = bin_view b -> (cabe r t = true <-> fits t b).
Proof.
  unfold ruta_view, bin_view, cabe, fits. intros E.
  injection E as _ _ Hc Hu _. rewrite Hc, Hu. apply Qle_bool_iff.
Qed.

Lemma cargar_add_item (r : ruta) (b : bin) (t : tienda) :
  ruta_view r = bin_view b -> ruta_view (cargar r t) = bin_view (add_item t b).
Proof.
  unfold ruta_view, bin_view. intros E.
  injection E as Hi Hn Hc Hu Ht. cbn.
  rewrite Hi, Hn, Hc, Hu, Ht. reflexivity.
Qed.

Lemma asignar_place (t : tienda) (rs : list ruta) :
  forall bins,
    List.map ruta_view rs = List.map bin_view bins ->
    List.map ruta_view (asignar t rs) = List.map bin_view (place bins t).
Proof.
  induction rs as [| r rs IH]; intros [| b bins] E; try discriminate.
  - reflexivity.
  - cbn [List.map] in E.
    assert (Er : ruta_view r = bin_view b) by congruence.
    assert (Ers : List.map ruta_view rs = List.map bin_view bins)
      by congruence.
    rewrite place_cons. cbn [asignar].
    pose proof (cabe_fits r b t Er) as Hcf.
    destruct (decide (fits t b)) as [Hf | Hf].
    + apply Hcf in Hf. rewrite Hf. cbn [List.map].
      rewrite (cargar_add_item r b t Er), Ers. reflexivity.
    + destruct (cabe r t) eqn:Ec.
      * exfalso. apply Hf, Hcf. reflexivity.
      * cbn [List.map]. rewrite Er, (IH bins Ers). reflexivity.
Qed.

Lemma asignar_todas_place (l : list tienda) :
  forall rs bins,
    List.map ruta_view rs = List.map bin_view bins ->
    List.map ruta_view (asignar_todas l rs)
    = List.map bin_view (fold_left place l bins).
Proof.
  unfold asignar_todas.
  induction l as [| t l IH]; intros rs bins E; cbn [fold_left].
  - exact E.
  - apply IH. apply asignar_place. exact E.
Qed.

Lemma filter_views (rs : list ruta) :
  forall bins,
    List.map ruta_view rs = List.map bin_view bins ->
    List.map ruta_view (List.filter no_vacia rs)
    = List.map bin_view
        (List.filter (fun b => negb (Nat.eqb (List.length (items b)) 0))
                     bins).
Proof.
  induction rs as [| r rs IH]; intros [| b bins] E; try discriminate.
  - reflexivity.
  - cbn [List.map] in E.
    assert (Er : ruta_view r = bin_view b) by congruence.
    assert (Ers : List.map ruta_view rs = List.map bin_view bins)
      by congruence.
    cbn [List.filter].
    assert (Hk : no_vacia r = negb (Nat.eqb (List.length (items b)) 0)).
    { unfold ruta_view, bin_view in Er. injection Er as _ _ _ _ Ht.
      unfold no_vacia. rewrite Ht. destruct (items b); reflexivity. }
    rewrite <- Hk. destruct (no_vacia r); cbn [List.map].
    + rewrite Er, (IH bins Ers). reflexivity.
    + apply IH. exact Ers.
Qed.

Lemma rutas_desde_ffd (sorted : list tienda) (vs : list vehiculo) :
  List.map ruta_view (rutas_desde sorted vs)
  = List.map bin_view (ffd_allocate sorted vs).
Proof.
  unfold rutas_desde, ffd_allocate.
  apply filter_views. apply asignar_todas_place.
  induction vs as [| v vs IH]; [reflexivity |].
  cbn [List.map]. rewrite IH. reflexivity.
Qed.

Lemma tiendasOrdenadas_contract (ts : list tienda) :
  stable_desc_sort combis_promedio ts (tiendasOrdenadas ts).
Proof. apply (array_sort_contract combis_promedio). Qed.

(** Any run on a conforming engine goes through the same sorted list as
    the embedding. *)
Lemma runs_to_inv (ts : list tienda) (vs : list vehiculo) (rs : list ruta) :
  runs_to ts vs rs -> rs = optimizarRutasBasico ts vs.
Proof.
  intros [ordenadas Hc]. unfold optimizarRutasBasico. f_equal.
  eapply stable_desc_sort_unique; [exact Hc |].
  apply tiendasOrdenadas_contract.
Qed.

Lemma runs_to_optimizar (ts : list tienda) (vs : list vehiculo) :
  runs_to ts vs (optimizarRutasBasico ts vs).
Proof. constructor. apply tiendasOrdenadas_contract. Qed.

(** C2.  [optimizarRutasBasico] is first-fit decreasing.  The list it
    iterates over is the input sorted by demand in descending order,
    stores of equal demand in input order; and whatever list meets that
    description, placing its stores one by one in the first bin (in
    vehicle order) with room, leaving out those that fit nowhere, and
    keeping the bins that hold a store, gives the routes returned: same
    vehicles in the same order, same used loads, same stores in the same
    order. *)
Theorem optimizar_is_first_fit_decreasing (ts : list tienda)
    (vs : list vehiculo) :
  stable_desc_sort combis_promedio ts (tiendasOrdenadas ts)
  /\ forall sorted,
       stable_desc_sort combis_promedio ts sorted ->
       List.map ruta_view (optimizarRutasBasico ts vs)
       = List.map bin_view (ffd_allocate sorted vs).
Proof.
  split; [apply tiendasOrdenadas_contract |].
  intros sorted Hs.
  rewrite <- (stable_desc_sort_unique combis_promedio ts _ _
                (tiendasOrdenadas_contract ts) Hs).
  apply rutas_desde_ffd.
Qed.

(** C7.  Determinism.  Two runs on the same input give the same routes,
    on any engine whose [sort] is stable and sorts by the comparator: the
    same routes in the same order, with the same stores in the same order
    and the same used loads. *)
Theorem allocate_deterministic (ts : list tienda) (vs : list vehiculo)
    (r1 r2 : list ruta) :
  runs_to ts vs r1 -> runs_to ts vs r2 -> r1 = r2.
Proof.
  intros H1 H2.
  rewrite (runs_to_inv ts vs r1 H1), (runs_to_inv ts vs r2 H2).
  reflexivity.
Qed.

Lemma allocate_deterministic_witness :
  optimizarRutasBasico ej_desordenadas ej_vehiculos
  = rutas_desde ej_tiendas ej_vehiculos.
Proof.
  apply (allocate_deterministic ej_desordenadas ej_vehiculos).
  - apply runs_to_optimizar.
  - constructor.
    change ej_tiendas with (tiendasOrdenadas ej_desordenadas).
    apply tiendasOrdenadas_contract.
Defined.

(** ** The functions over the heap *)

Section HeapPrimitives.
Implicit Types (h : Heap.heap) (l : Heap.loc).

Lemma bind_Some {A B : Type} (m : Heap.Js A) (k : A -> Heap.Js B) h a h' :
  m h = Some (a, h') -> Heap.bind m k h = k a h'.
Proof. intros E. unfold Heap.bind. rewrite E. reflexivity. Qed.

Lemma read_array_run h l elems :
  h !! l = Some (Heap.OArray elems) -> Heap.read_array l h = Some (elems, h).
Proof.
  intros E. unfold Heap.read_array, Heap.bind, Heap.read.
  rewrite E. reflexivity.
Qed.

Lemma read_tienda_run h l t :
  Heap.tienda_at h l t -> Heap.read_tienda l h = Some (t, h).
Proof.
  intros E. unfold Heap.read_tienda, Heap.bind, Heap.read.
  rewrite E. reflexivity.
Qed.

Lemma read_vehiculo_run h l v :
  Heap.vehiculo_at h l v -> Heap.read_vehiculo l h = Some (v, h).
Proof.
  intros E. unfold Heap.read_vehiculo, Heap.bind, Heap.read.
  rewrite E. reflexivity.
Qed.

Lemma read_ruta_run h l r :
  h !! l = Some (Heap.ORuta r) -> Heap.read_ruta l h = Some (r, h).
Proof.
  intros E. unfold Heap.read_ruta, Heap.bind, Heap.read.
  rewrite E. reflexivity.
Qed.

Lemma write_run h l o o' :
  h !! l = Some o -> Heap.write l o' h = Some (tt, <[l := o']> h).
Proof. intros E. unfold Heap.write. rewrite E. reflexivity. Qed.

Lemma fresh_unused h : h !! fresh (dom h) = None.
Proof. apply not_elem_of_dom. apply is_fresh. Qed.

Lemma alloc_subseteq h o : h ⊆ <[fresh (dom h) := o]> h.
Proof. apply insert_subseteq. apply fresh_unused. Qed.

Lemma tienda_at_weaken h h' l t :
  h ⊆ h' -> Heap.tienda_at h l t -> Heap.tienda_at h' l t.
Proof. intros Hs E. exact (lookup_weaken _ _ _ _ E Hs). Qed.

Lemma ruta_at_weaken h0 h h' c r :
  h ⊆ h' -> Heap.ruta_at h0 h c r -> Heap.ruta_at h0 h' c r.
Proof.
  intros Hs [E [tls [Ea Ht]]]. split.
  - exact (lookup_weaken _ _ _ _ E Hs).
  - exists tls. split; [exact (lookup_weaken _ _ _ _ Ea Hs) | exact Ht].
Qed.

(** A route is represented in every heap that agrees with [h] on its
    two locations. *)
Lemma ruta_at_frame h0 h h' c r :
  h' !! fst c = h !! fst c -> h' !! snd c = h !! snd c ->
  Heap.ruta_at h0 h c r -> Heap.ruta_at h0 h' c r.
Proof.
  intros E1 E2 [E [tls [Ea Ht]]]. split.
  - rewrite E1. exact E.
  - exists tls. split; [rewrite E2; exact Ea | exact Ht].
Qed.

Lemma owned_cons (c : Heap.loc * Heap.loc) cells :
  Heap.owned (c :: cells) = fst c :: snd c :: Heap.owned cells.
Proof. reflexivity. Qed.

Lemma rutas_at_frame h0 h h' cells rs :
  (forall l, l ∈ Heap.owned cells -> h' !! l = h !! l) ->
  Forall2 (Heap.ruta_at h0 h) cells rs ->
  Forall2 (Heap.ruta_at h0 h') cells rs.
Proof.
  intros Hfr H. induction H as [| c r cells rs Hc Hrest IH].
  - constructor.
  - rewrite owned_cons in Hfr. constructor.
    + apply (ruta_at_frame h0 h); [| | exact Hc]; apply Hfr.
      * apply list_elem_of_here.
      * apply list_elem_of_further, list_elem_of_here.
    + apply IH. intros l Hl. apply Hfr.
      do 2 apply list_elem_of_further. exact Hl.
Qed.

End HeapPrimitives.

(** *** The copy and the sort *)

Lemma mapM_read_tiendas (h : Heap.heap) (tls : list Heap.loc)
    (ts : list tienda) :
  Forall2 (Heap.tienda_at h) tls ts ->
  Heap.mapM (fun l => Heap.bind (Heap.read_tienda l)
                        (fun t => Heap.ret (l, t))) tls h
  = Some (List.combine tls ts, h).
Proof.
  induction 1 as [| l t tls ts Hl Hrest IH]; [reflexivity |].
  cbn [Heap.mapM List.combine].
  erewrite bind_Some;
    [| erewrite bind_Some; [reflexivity | apply read_tienda_run; exact Hl]].
  erewrite bind_Some; [reflexivity | exact IH].
Qed.

Section SortRows.
Context {A B : Type} (f : A -> B) (cmp : B -> B -> Q).

Lemma sort_insert_map (x : A) (l : list A) :
  List.map f (sort_insert (fun a b => cmp (f a) (f b)) x l)
  = sort_insert cmp (f x) (List.map f l).
Proof.
  induction l as [| y l IH]; [reflexivity |].
  cbn [sort_insert List.map].
  destruct (Qle_bool (cmp (f x) (f y)) 0); cbn [List.map].
  - reflexivity.
  - rewrite IH. reflexivity.
Qed.

Lemma array_sort_map (l : list A) :
  List.map f (array_sort (fun a b => cmp (f a) (f b)) l)
  = array_sort cmp (List.map f l).
Proof.
  induction l as [| x l IH]; [reflexivity |].
  cbn [array_sort fold_right List.map].
  rewrite sort_insert_map. f_equal. exact IH.
Qed.

End SortRows.

Lemma combine_rows (h : Heap.heap) (tls : list Heap.loc) (ts : list tienda) :
  Forall2 (Heap.tienda_at h) tls ts ->
  List.map snd (List.combine tls ts) = ts
  /\ Forall (fun p => Heap.tienda_at h (fst p) (snd p)) (List.combine tls ts).
Proof.
  induction 1 as [| l t tls ts Hl Hrest [IH1 IH2]]; cbn.
  - split; constructor.
  - split; [rewrite IH1; reflexivity | constructor; assumption].
Qed.

Lemma rows_Forall2 (h : Heap.heap) (rows : list (Heap.loc * tienda)) :
  Forall (fun p => Heap.tienda_at h (fst p) (snd p)) rows ->
  Forall2 (Heap.tienda_at h) (List.map fst rows) (List.map snd rows).
Proof. induction 1; cbn; constructor; assumption. Qed.

(** The sorted array of references represents the sorted list of rows. *)
Lemma sorted_rows (h : Heap.heap) (tls : list Heap.loc) (ts : list tienda) :
  Forall2 (Heap.tienda_at h) tls ts ->
  Forall2 (Heap.tienda_at h)
    (List.map fst
       (array_sort (fun a b => por_combis_desc (snd a) (snd b))
                   (List.combine tls ts)))
    (tiendasOrdenadas ts).
Proof.
  intros H. destruct (combine_rows h tls ts H) as [Hsnd Hall].
  unfold tiendasOrdenadas. rewrite <- Hsnd at 2.
  rewrite <- (array_sort_map snd por_combis_desc).
  apply rows_Forall2.
  eapply Permutation_Forall; [| exact Hall].
  apply (array_sort_perm (fun p : Heap.loc * tienda => combis_promedio (snd p))).
Qed.

(** *** The routes built by [vehiculos.map] *)

Lemma vehiculo_at_weaken (h h' : Heap.heap) (l : Heap.loc) (v : vehiculo) :
  h ⊆ h' -> Heap.vehiculo_at h l v -> Heap.vehiculo_at h' l v.
Proof. intros Hs E. exact (lookup_weaken _ _ _ _ E Hs). Qed.

Lemma nueva_ruta_run (h : Heap.heap) (vl : Heap.loc) (v : vehiculo) :
  Heap.vehiculo_at h vl v ->
  let a := fresh (dom h) in
  let h1 := <[a := Heap.OArray []]> h in
  let rl := fresh (dom h1) in
  Heap.nueva_ruta vl h
  = Some (rl,
          <[rl := Heap.ORuta
                    {| Heap.o_vehiculo_id := v_id v;
                       Heap.o_vehiculo_nombre := nombre_corto v;
                       Heap.o_capacidad_maxima := capacidad_combis v;
                       Heap.o_capacidad_usada := 0;
                       Heap.o_tiendas := a;
                       Heap.o_eficiencia := Fin 0 |}]> h1).
Proof.
  intros Hv a h1 rl. unfold Heap.nueva_ruta.
  erewrite bind_Some; [| apply read_vehiculo_run; exact Hv].
  erewrite bind_Some; [| reflexivity].
  reflexivity.
Qed.

Lemma mapM_nueva_ruta (h0 : Heap.heap) (vls : list Heap.loc)
    (vs : list vehiculo) :
  Forall2 (Heap.vehiculo_at h0) vls vs ->
  forall h : Heap.heap,
    h0 ⊆ h ->
    exists cells h',
      Heap.mapM Heap.nueva_ruta vls h = Some (List.map fst cells, h')
      /\ h ⊆ h'
      /\ Forall2 (Heap.ruta_at h0 h') cells (List.map ruta_inicial vs)
      /\ NoDup (Heap.owned cells)
      /\ Forall (fun l => h !! l = None) (Heap.owned cells).
Proof.
  induction 1 as [| vl v vls vs Hv Hrest IH]; intros h Hs.
  - exists [], h.
    split; [reflexivity |]. split; [reflexivity |].
    split; [constructor |]. split; constructor.
  - pose proof (nueva_ruta_run h vl v (vehiculo_at_weaken _ _ _ _ Hs Hv))
      as Hrun.
    cbv zeta in Hrun.
    set (a := fresh (dom h)) in *.
    set (h1 := <[a := Heap.OArray []]> h) in *.
    set (rl := fresh (dom h1)) in *.
    set (h2 := <[rl := _]> h1) in *.
    assert (Ha : h !! a = None) by apply fresh_unused.
    assert (Hrl1 : h1 !! rl = None) by apply fresh_unused.
    assert (Hrl : h !! rl = None).
    { apply (lookup_weaken_None h h1); [exact Hrl1 |].
      apply insert_subseteq. exact Ha. }
    assert (Hne : rl <> a).
    { intros E. rewrite E in Hrl1. unfold h1 in Hrl1.
      rewrite lookup_insert_eq in Hrl1. discriminate. }
    assert (Hs1 : h ⊆ h1) by (apply insert_subseteq; exact Ha).
    assert (Hs2 : h1 ⊆ h2) by (apply insert_subseteq; exact Hrl1).
    assert (Hs02 : h0 ⊆ h2) by (etrans; [exact Hs |]; etrans; eassumption).
    destruct (IH h2 Hs02) as (cells & h' & Hm & Hs' & Hrep & Hnd & Hfresh).
    exists ((rl, a) :: cells), h'. split; [| split; [| split; [| split]]].
    + cbn [Heap.mapM List.map fst].
      erewrite bind_Some; [| exact Hrun].
      erewrite bind_Some; [reflexivity | exact Hm].
    + etrans; [exact Hs1 |]. etrans; [exact Hs2 | exact Hs'].
    + cbn [List.map]. constructor; [| exact Hrep].
      split; cbn [fst snd ruta_inicial vehiculo_id vehiculo_nombre
                  capacidad_maxima capacidad_usada eficiencia tiendas].
      * apply (lookup_weaken h2); [| exact Hs'].
        unfold h2. apply lookup_insert_eq.
      * exists []. split; [| constructor].
        apply (lookup_weaken h2); [| exact Hs'].
        unfold h2. rewrite lookup_insert_ne by exact Hne.
        unfold h1. apply lookup_insert_eq.
    + rewrite owned_cons. cbn [fst snd].
      rewrite Forall_forall in Hfresh.
      apply NoDup_cons. split.
      * intros Hin. apply elem_of_cons in Hin. destruct Hin as [E | Hin].
        { exact (Hne E). }
        { specialize (Hfresh rl Hin). unfold h2 in Hfresh.
          rewrite lookup_insert_eq in Hfresh. discriminate. }
      * apply NoDup_cons. split; [| exact Hnd].
        intros Hin. specialize (Hfresh a Hin). unfold h2 in Hfresh.
        rewrite lookup_insert_ne in Hfresh by exact Hne.
        unfold h1 in Hfresh. rewrite lookup_insert_eq in Hfresh.
        discriminate.
    + rewrite owned_cons. cbn [fst snd].
      constructor; [exact Hrl |]. constructor; [exact Ha |].
      eapply Forall_impl; [exact Hfresh |].
      intros l Hl. cbv beta in Hl.
      apply (lookup_weaken_None h h2); [exact Hl |].
      etrans; eassumption.
Qed.

(** *** The assignment loop *)

Lemma push_run (h : Heap.heap) (a x : Heap.loc) (elems : list Heap.loc) :
  h !! a = Some (Heap.OArray elems) ->
  Heap.push a x h = Some (tt, <[a := Heap.OArray (elems ++ [x])]> h).
Proof.
  intros E. unfold Heap.push.
  erewrite bind_Some; [| apply read_array_run; exact E].
  apply (write_run h a (Heap.OArray elems)). exact E.
Qed.

Lemma owned_cons_NoDup (rl a : Heap.loc) (cells : list (Heap.loc * Heap.loc)) :
  NoDup (Heap.owned ((rl, a) :: cells)) ->
  rl <> a /\ (rl ∉ Heap.owned cells) /\ (a ∉ Heap.owned cells)
  /\ NoDup (Heap.owned cells).
Proof.
  rewrite owned_cons. cbn [fst snd].
  intros H. apply NoDup_cons in H. destruct H as [H1 H].
  apply NoDup_cons in H. destruct H as [H2 H3].
  split; [| split; [| split]]; try assumption.
  - intros E. apply H1. rewrite E. apply list_elem_of_here.
  - intros Hin. apply H1. apply list_elem_of_further. exact Hin.
Qed.

Lemma not_owned_cons (l rl a : Heap.loc) (cells : list (Heap.loc * Heap.loc)) :
  l ∉ Heap.owned ((rl, a) :: cells) ->
  l <> rl /\ l <> a /\ (l ∉ Heap.owned cells).
Proof.
  rewrite owned_cons. cbn [fst snd]. intros H.
  split; [| split].
  - intros E. apply H. rewrite E. apply list_elem_of_here.
  - intros E. apply H. rewrite E.
    apply list_elem_of_further, list_elem_of_here.
  - intros Hin. apply H. do 2 apply list_elem_of_further. exact Hin.
Qed.

Lemma for_rutas_run (h0 : Heap.heap) (tl : Heap.loc) (t : tienda) :
  Heap.tienda_at h0 tl t ->
  forall (cells : list (Heap.loc * Heap.loc)) (rs : list ruta)
         (h : Heap.heap),
    Forall2 (Heap.ruta_at h0 h) cells rs ->
    h0 ⊆ h ->
    NoDup (Heap.owned cells) ->
    exists h',
      Heap.for_rutas tl (List.map fst cells) h = Some (tt, h')
      /\ Forall2 (Heap.ruta_at h0 h') cells (asignar t rs)
      /\ (forall l, l ∉ Heap.owned cells -> h' !! l = h !! l).
Proof.
  intros Ht.
  induction cells as [| [rl a] cells IH]; intros rs h Hrep Hs Hnd.
  - inversion Hrep; subst. exists h.
    split; [reflexivity |]. split; [constructor | reflexivity].
  - inversion Hrep as [| c r cells' rs' Hc Hrest]; subst.
    destruct (owned_cons_NoDup rl a cells Hnd) as (Hne & Hrl & Ha & Hnd').
    pose proof Hc as [E [tls [Ea Htls]]]. cbn [fst snd] in E, Ea.
    cbn [Heap.for_rutas List.map fst asignar].
    erewrite bind_Some; [| apply read_ruta_run; exact E].
    erewrite bind_Some;
      [| apply read_tienda_run; exact (tienda_at_weaken _ _ _ _ Hs Ht)].
    cbn [Heap.o_capacidad_usada Heap.o_capacidad_maxima Heap.o_tiendas].
    change (Qle_bool (capacidad_usada r + combis_promedio t)
                     (capacidad_maxima r)) with (cabe r t).
    destruct (cabe r t) eqn:Ec.
    + eexists. split; [| split].
      * erewrite bind_Some; [| apply push_run; exact Ea].
        erewrite bind_Some;
          [| apply read_ruta_run; rewrite lookup_insert_ne by (symmetry; exact Hne);
             exact E].
        erewrite bind_Some;
          [| eapply write_run; rewrite lookup_insert_ne by (symmetry; exact Hne);
             exact E].
        erewrite bind_Some; [| apply read_ruta_run; apply lookup_insert_eq].
        eapply write_run. apply lookup_insert_eq.
      * constructor.
        { split; cbn [fst snd].
          - rewrite lookup_insert_eq. reflexivity.
          - exists (tls ++ [tl]). split.
            + rewrite !lookup_insert_ne by exact Hne.
              apply lookup_insert_eq.
            + cbn [cargar tiendas]. apply Forall2_app; [exact Htls |].
              constructor; [exact Ht | constructor]. }
        { eapply rutas_at_frame; [| exact Hrest].
          intros l Hl.
          assert (l <> rl) by (intros ->; exact (Hrl Hl)).
          assert (l <> a) by (intros ->; exact (Ha Hl)).
          rewrite !lookup_insert_ne by congruence. reflexivity. }
      * intros l Hl.
        destruct (not_owned_cons l rl a cells Hl) as (H1 & H2 & _).
        rewrite !lookup_insert_ne by congruence. reflexivity.
    + destruct (IH rs' h Hrest Hs Hnd') as (h' & Hrun & Hrep' & Hfr).
      exists h'. split; [exact Hrun |]. split.
      * constructor; [| exact Hrep'].
        apply (ruta_at_frame h0 h); [| | exact Hc]; cbn [fst snd];
          apply Hfr; assumption.
      * intros l Hl.
        destruct (not_owned_cons l rl a cells Hl) as (_ & _ & H3).
        apply Hfr. exact H3.
Qed.

(** A heap that differs from [h] only at owned locations still holds
    every object of [h0]. *)
Lemma frame_subseteq (h0 h h' : Heap.heap) (own : list Heap.loc) :
  h0 ⊆ h ->
  Forall (fun l => h0 !! l = None) own ->
  (forall l, l ∉ own -> h' !! l = h !! l) ->
  h0 ⊆ h'.
Proof.
  intros Hs Hown Hfr. apply map_subseteq_spec. intros i x Hi.
  rewrite Hfr; [exact (lookup_weaken _ _ _ _ Hi Hs) |].
  intros Hin. rewrite Forall_forall in Hown.
  rewrite (Hown i Hin) in Hi. discriminate.
Qed.

Lemma forEach_run (h0 : Heap.heap) (rutas : Heap.loc)
    (cells : list (Heap.loc * Heap.loc)) :
  NoDup (Heap.owned cells) ->
  rutas ∉ Heap.owned cells ->
  Forall (fun l => h0 !! l = None) (Heap.owned cells) ->
  forall (sls : list Heap.loc) (sts : list tienda),
    Forall2 (Heap.tienda_at h0) sls sts ->
    forall (rs : list ruta) (h : Heap.heap),
      Forall2 (Heap.ruta_at h0 h) cells rs ->
      h0 ⊆ h ->
      h !! rutas = Some (Heap.OArray (List.map fst cells)) ->
      exists h',
        Heap.forM (fun tl => Heap.bind (Heap.read_array rutas)
                               (fun rls => Heap.for_rutas tl rls)) sls h
        = Some (tt, h')
        /\ Forall2 (Heap.ruta_at h0 h') cells (asignar_todas sts rs)
        /\ (forall l, l ∉ Heap.owned cells -> h' !! l = h !! l).
Proof.
  intros Hnd Hr Hown.
  induction 1 as [| tl t sls sts Ht Hrest IH]; intros rs h Hrep Hs Harr.
  - exists h. split; [reflexivity |]. split; [exact Hrep | reflexivity].
  - destruct (for_rutas_run h0 tl t Ht cells rs h Hrep Hs Hnd)
      as (h1 & Hrun & Hrep1 & Hfr1).
    assert (Hs1 : h0 ⊆ h1) by exact (frame_subseteq h0 h h1 _ Hs Hown Hfr1).
    assert (Harr1 : h1 !! rutas = Some (Heap.OArray (List.map fst cells)))
      by (rewrite (Hfr1 rutas Hr); exact Harr).
    destruct (IH (asignar t rs) h1 Hrep1 Hs1 Harr1)
      as (h' & Hrun' & Hrep' & Hfr').
    exists h'. split; [| split].
    + cbn [Heap.forM].
      erewrite bind_Some; [exact Hrun' |].
      erewrite bind_Some; [exact Hrun |].
      apply read_array_run. exact Harr.
    + exact Hrep'.
    + intros l Hl. rewrite (Hfr' l Hl). apply Hfr1. exact Hl.
Qed.

(** *** The final filter *)

Lemma con_tiendas_run (h0 h : Heap.heap) (c : Heap.loc * Heap.loc)
    (r : ruta) :
  Heap.ruta_at h0 h c r ->
  Heap.con_tiendas (fst c) h = Some (no_vacia r, h).
Proof.
  intros [E [tls [Ea Htls]]]. unfold Heap.con_tiendas.
  erewrite bind_Some; [| apply read_ruta_run; exact E].
  cbn [Heap.o_tiendas].
  erewrite bind_Some; [| apply read_array_run; exact Ea].
  unfold Heap.ret, no_vacia.
  rewrite (Forall2_length _ _ _ Htls). reflexivity.
Qed.

Lemma filterM_con_tiendas (h0 h : Heap.heap)
    (cells : list (Heap.loc * Heap.loc)) (rs : list ruta) :
  Forall2 (Heap.ruta_at h0 h) cells rs ->
  exists cells',
    Heap.filterM Heap.con_tiendas (List.map fst cells) h
    = Some (List.map fst cells', h)
    /\ Forall2 (Heap.ruta_at h0 h) cells' (List.filter no_vacia rs)
    /\ (forall l, l ∈ Heap.owned cells' -> l ∈ Heap.owned cells).
Proof.
  induction 1 as [| c r cells rs Hc Hrest IH].
  - exists []. split; [reflexivity |]. split; [constructor | tauto].
  - destruct IH as (cells' & Hrun & Hrep & Hsub).
    exists (if no_vacia r then c :: cells' else cells').
    split; [| split].
    + cbn [Heap.filterM List.map].
      erewrite bind_Some; [| apply (con_tiendas_run h0); exact Hc].
      erewrite bind_Some; [| exact Hrun].
      destruct (no_vacia r); reflexivity.
    + cbn [List.filter]. destruct (no_vacia r);
        [constructor; assumption | exact Hrep].
    + intros l Hl. rewrite owned_cons.
      destruct (no_vacia r).
      * rewrite owned_cons in Hl.
        apply elem_of_cons in Hl. destruct Hl as [-> | Hl];
          [apply list_elem_of_here |].
        apply elem_of_cons in Hl. destruct Hl as [-> | Hl];
          [apply list_elem_of_further, list_elem_of_here |].
        do 2 apply list_elem_of_further. apply Hsub. exact Hl.
      * do 2 apply list_elem_of_further. apply Hsub. exact Hl.
Qed.

(** *** The whole of [optimizarRutasBasico] *)

Lemma owned_is_Some (h0 h : Heap.heap) (cells : list (Heap.loc * Heap.loc))
    (rs : list ruta) :
  Forall2 (Heap.ruta_at h0 h) cells rs ->
  forall l, l ∈ Heap.owned cells -> is_Some (h !! l).
Proof.
  induction 1 as [| c r cells rs Hc Hrest IH]; intros l Hl.
  - inversion Hl.
  - rewrite owned_cons in Hl. destruct Hc as [E [tls [Ea _]]].
    apply elem_of_cons in Hl. destruct Hl as [-> | Hl]; [eauto |].
    apply elem_of_cons in Hl. destruct Hl as [-> | Hl]; [eauto |].
    apply IH. exact Hl.
Qed.

Lemma optimizar_run (h : Heap.heap) (tiendas vehiculos : Heap.loc)
    (tls : list Heap.loc) (ts : list tienda)
    (vls : list Heap.loc) (vs : list vehiculo) :
  h !! tiendas = Some (Heap.OArray tls) ->
  Forall2 (Heap.tienda_at h) tls ts ->
  h !! vehiculos = Some (Heap.OArray vls) ->
  Forall2 (Heap.vehiculo_at h) vls vs ->
  exists res h',
    Heap.optimizarRutasBasico tiendas vehiculos h = Some (res, h')
    /\ h ⊆ h'
    /\ Heap.rutas_at h h' res (optimizarRutasBasico ts vs).
Proof.
  intros Ht Hts Hv Hvs.
  (* the copy *)
  set (copia := fresh (dom h)).
  set (h1 := <[copia := Heap.OArray tls]> h).
  assert (Hcopia : h !! copia = None) by apply fresh_unused.
  assert (Hs1 : h ⊆ h1) by (apply insert_subseteq; exact Hcopia).
  assert (Hspread : Heap.spread tiendas h = Some (copia, h1)).
  { unfold Heap.spread.
    erewrite bind_Some; [| apply read_array_run; exact Ht]. reflexivity. }
  (* the sort, in place *)
  set (sl := List.map fst
               (array_sort (fun a b => por_combis_desc (snd a) (snd b))
                           (List.combine tls ts))).
  set (h2 := <[copia := Heap.OArray sl]> h1).
  assert (Hs2 : h ⊆ h2).
  { apply insert_subseteq_r; [exact Hcopia | exact Hs1]. }
  assert (Hsort : Heap.sort_por_combis copia h1 = Some (copia, h2)).
  { unfold Heap.sort_por_combis.
    erewrite bind_Some; [| apply read_array_run; apply lookup_insert_eq].
    erewrite bind_Some;
      [| apply mapM_read_tiendas;
         eapply Forall2_impl; [exact Hts |];
         intros l t; apply tienda_at_weaken; exact Hs1].
    cbv zeta.
    erewrite bind_Some;
      [| eapply write_run; apply lookup_insert_eq].
    reflexivity. }
  assert (Hsl : Forall2 (Heap.tienda_at h) sl (tiendasOrdenadas ts))
    by (apply sorted_rows; exact Hts).
  (* the routes *)
  destruct (mapM_nueva_ruta h vls vs Hvs h2 Hs2)
    as (cells & h3 & Hmap & Hs3 & Hrep3 & Hnd & Hfresh2).
  set (rutas := fresh (dom h3)).
  set (h4 := <[rutas := Heap.OArray (List.map fst cells)]> h3).
  assert (Hrutas : h3 !! rutas = None) by apply fresh_unused.
  assert (Hs4 : h3 ⊆ h4) by (apply insert_subseteq; exact Hrutas).
  assert (Harrmap : Heap.array_map Heap.nueva_ruta vehiculos h2
                    = Some (rutas, h4)).
  { unfold Heap.array_map.
    erewrite bind_Some;
      [| apply read_array_run; exact (lookup_weaken _ _ _ _ Hv Hs2)].
    erewrite bind_Some; [| exact Hmap]. reflexivity. }
  assert (Hown : Forall (fun l => h !! l = None) (Heap.owned cells)).
  { eapply Forall_impl; [exact Hfresh2 |]. intros l Hl. cbv beta in Hl.
    exact (lookup_weaken_None _ _ _ Hl Hs2). }
  assert (Hr : rutas ∉ Heap.owned cells).
  { intros Hin. destruct (owned_is_Some h h3 cells _ Hrep3 rutas Hin) as [o Ho].
    rewrite Hrutas in Ho. discriminate. }
  assert (Hrep4 : Forall2 (Heap.ruta_at h h4) cells
                          (List.map ruta_inicial vs)).
  { eapply Forall2_impl; [exact Hrep3 |].
    intros c r. apply ruta_at_weaken. exact Hs4. }
  assert (Hs04 : h ⊆ h4) by (etrans; [exact Hs2 |]; etrans; eassumption).
  (* the loop *)
  destruct (forEach_run h rutas cells Hnd Hr Hown sl (tiendasOrdenadas ts)
              Hsl (List.map ruta_inicial vs) h4 Hrep4 Hs04
              (lookup_insert_eq _ _ _))
    as (h5 & Hloop & Hrep5 & Hfr5).
  assert (Hs5 : h ⊆ h5) by exact (frame_subseteq h h4 h5 _ Hs04 Hown Hfr5).
  assert (HforEach :
            Heap.forEach (fun tl => Heap.bind (Heap.read_array rutas)
                                      (fun rls => Heap.for_rutas tl rls))
                         copia h4
            = Some (tt, h5)).
  { unfold Heap.forEach.
    erewrite bind_Some; [exact Hloop |].
    apply read_array_run.
    apply (lookup_weaken h2); [apply lookup_insert_eq |].
    etrans; eassumption. }
  (* the filter *)
  destruct (filterM_con_tiendas h h5 cells _ Hrep5)
    as (cells' & Hfil & Hrep' & Hsub).
  set (res := fresh (dom h5)).
  set (h6 := <[res := Heap.OArray (List.map fst cells')]> h5).
  assert (Hres : h5 !! res = None) by apply fresh_unused.
  assert (Hs6 : h5 ⊆ h6) by (apply insert_subseteq; exact Hres).
  exists res, h6. split; [| split].
  - unfold Heap.optimizarRutasBasico.
    erewrite bind_Some; [| exact Hspread].
    erewrite bind_Some; [| exact Hsort].
    erewrite bind_Some; [| exact Harrmap].
    erewrite bind_Some; [| exact HforEach].
    unfold Heap.array_filter.
    erewrite bind_Some;
      [| apply read_array_run; rewrite (Hfr5 rutas Hr);
         apply lookup_insert_eq].
    erewrite bind_Some; [| exact Hfil]. reflexivity.
  - etrans; eassumption.
  - exists cells'. split; [apply lookup_insert_eq |]. split.
    + eapply Forall2_impl; [exact Hrep' |].
      intros c r. apply ruta_at_weaken. exact Hs6.
    + constructor.
      * exact (lookup_weaken_None _ _ _ Hres Hs5).
      * rewrite Forall_forall in *. intros l Hl. apply Hown, Hsub, Hl.
Qed.

(** *** [calcularMetricas] only reads *)

Lemma foldM_rutas {B : Type} (h0 h : Heap.heap)
    (f : B -> Heap.loc -> Heap.Js B) (g : B -> ruta -> B) :
  (forall acc c r, Heap.ruta_at h0 h c r ->
                   f acc (fst c) h = Some (g acc r, h)) ->
  forall cells rs,
    Forall2 (Heap.ruta_at h0 h) cells rs ->
    forall acc,
      Heap.foldM f (List.map fst cells) acc h
      = Some (fold_left g rs acc, h).
Proof.
  intros Hf. induction 1 as [| c r cells rs Hc Hrest IH]; intros acc.
  - reflexivity.
  - cbn [Heap.foldM List.map fold_left].
    erewrite bind_Some; [| apply Hf; exact Hc]. apply IH.
Qed.

Lemma calcularMetricas_run (h0 h : Heap.heap) (res : Heap.loc)
    (rs : list ruta) (n : nat) :
  Heap.rutas_at h0 h res rs ->
  Heap.calcularMetricas res n h = Some (calcularMetricas rs n, h).
Proof.
  intros (cells & Harr & Hrep & _).
  unfold Heap.calcularMetricas, Heap.reduce.
  erewrite bind_Some.
  2: { erewrite bind_Some; [| apply read_array_run; exact Harr].
       apply (foldM_rutas h0 h _ (fun sum r => sum + capacidad_maxima r));
         [| exact Hrep].
       intros acc c r [E _].
       erewrite bind_Some; [| apply read_ruta_run; exact E]. reflexivity. }
  erewrite bind_Some.
  2: { erewrite bind_Some; [| apply read_array_run; exact Harr].
       apply (foldM_rutas h0 h _ (fun sum r => sum + capacidad_usada r));
         [| exact Hrep].
       intros acc c r [E _].
       erewrite bind_Some; [| apply read_ruta_run; exact E]. reflexivity. }
  erewrite bind_Some.
  2: { erewrite bind_Some; [| apply read_array_run; exact Harr].
       apply (foldM_rutas h0 h _
                (fun sum r => (sum + List.length (tiendas r))%nat));
         [| exact Hrep].
       intros acc c r [E [tls [Ea Htls]]].
       erewrite bind_Some; [| apply read_ruta_run; exact E].
       cbn [Heap.o_tiendas].
       erewrite bind_Some; [| apply read_array_run; exact Ea].
       unfold Heap.ret. rewrite (Forall2_length _ _ _ Htls). reflexivity. }
  erewrite bind_Some; [| apply read_array_run; exact Harr].
  unfold Heap.ret, calcularMetricas.
  rewrite length_map, (Forall2_length _ _ _ Hrep). reflexivity.
Qed.

(** C9.  Called on a heap [h] that holds the two input arrays and their
    rows, [optimizarRutasBasico] returns, and every object of [h] (the
    two arrays, every shop row and every vehicle row among them) is in
    the final heap as it was: the sort works on a copy.  The array
    returned, its route objects and their arrays of stores are new
    objects, and they represent the routes that the function on values
    computes.  [calcularMetricas], called on the result, returns the
    metrics of those routes and leaves the heap as it is. *)
Theorem allocate_and_score_preserve_inputs (h : Heap.heap)
    (tiendas vehiculos : Heap.loc)
    (tls : list Heap.loc) (ts : list tienda)
    (vls : list Heap.loc) (vs : list vehiculo) (n : nat) :
  h !! tiendas = Some (Heap.OArray tls) ->
  Forall2 (Heap.tienda_at h) tls ts ->
  h !! vehiculos = Some (Heap.OArray vls) ->
  Forall2 (Heap.vehiculo_at h) vls vs ->
  exists res h',
    Heap.optimizarRutasBasico tiendas vehiculos h = Some (res, h')
    /\ h ⊆ h'
    /\ Heap.rutas_at h h' res (optimizarRutasBasico ts vs)
    /\ Heap.calcularMetricas res n h'
       = Some (calcularMetricas (optimizarRutasBasico ts vs) n, h').
Proof.
  intros Ht Hts Hv Hvs.
  destruct (optimizar_run h tiendas vehiculos tls ts vls vs Ht Hts Hv Hvs)
    as (res & h' & Hrun & Hs & Hrep).
  exists res, h'. repeat split; try assumption.
  apply (calcularMetricas_run h). exact Hrep.
Qed.

Lemma allocate_and_score_preserve_inputs_witness :
  exists res h',
    Heap.optimizarRutasBasico 1%positive 2%positive ej_heap = Some (res, h')
    /\ ej_heap ⊆ h'
    /\ Heap.rutas_at ej_heap h' res
         (optimizarRutasBasico [ej_tienda "s1" 2; ej_tienda "s2" 5]
                               [ej_vehiculo "A" 10])
    /\ Heap.calcularMetricas res 2 h'
       = Some (calcularMetricas
                 (optimizarRutasBasico [ej_tienda "s1" 2; ej_tienda "s2" 5]
                                       [ej_vehiculo "A" 10]) 2, h').
Proof.
  apply (allocate_and_score_preserve_inputs ej_heap 1%positive 2%positive
           [3%positive; 4%positive] _ [5%positive] _ 2).
  - reflexivity.
  - repeat constructor.
  - reflexivity.
  - repeat constructor.
Defined.

(** ** No vehicles, on the heap *)

(** C8.  With stores and no vehicle, [optimizarRutasBasico] returns the
    empty list of routes.  On the heap, where a run can fail, the call
    does not: it returns a new array with no element.  The metrics over
    the result show the infeasibility in the output only: no vehicle used
    while the number of stores is positive. *)
Theorem no_vehicles_no_routes (h : Heap.heap) (tiendas vehiculos : Heap.loc)
    (tls : list Heap.loc) (ts : list tienda) :
  ts <> [] ->
  h !! tiendas = Some (Heap.OArray tls) ->
  Forall2 (Heap.tienda_at h) tls ts ->
  h !! vehiculos = Some (Heap.OArray []) ->
  optimizarRutasBasico ts [] = []
  /\ (exists res h',
        Heap.optimizarRutasBasico tiendas vehiculos h = Some (res, h')
        /\ h' !! res = Some (Heap.OArray []))
  /\ (let m := calcularMetricas (optimizarRutasBasico ts [])
                                (List.length ts) in
      vehiculos_necesarios m = 0%nat /\ (0 < tiendas_totales m)%nat).
Proof.
  intros Hne Ht Hts Hv. split; [apply optimizar_sin_vehiculos |]. split.
  - destruct (optimizar_run h tiendas vehiculos tls ts [] [] Ht Hts Hv
                (List.Forall2_nil _))
      as (res & h' & Hrun & _ & cells & Harr & Hrep & _).
    exists res, h'. split; [exact Hrun |].
    rewrite optimizar_sin_vehiculos in Hrep.
    inversion Hrep; subst. exact Harr.
  - rewrite optimizar_sin_vehiculos. cbn. split; [reflexivity |].
    destruct ts; [contradiction | cbn; lia].
Qed.

Lemma no_vehicles_no_routes_witness :
  optimizarRutasBasico [ej_tienda "s1" 2; ej_tienda "s2" 5] [] = []
  /\ exists res h',
       Heap.optimizarRutasBasico 1%positive 6%positive ej_heap
       = Some (res, h')
       /\ h' !! res = Some (Heap.OArray []).
Proof.
  destruct (no_vehicles_no_routes ej_heap 1%positive 6%positive
              [3%positive; 4%positive]
              [ej_tienda "s1" 2; ej_tienda "s2" 5])
    as (Hpure & Hrun & _).
  - discriminate.
  - reflexivity.
  - repeat constructor.
  - reflexivity.
  - split; [exact Hpure | exact Hrun].
Defined.

(** * Further properties of the two functions *)

(** ** Input that is sorted already *)

Lemma array_sort_sorted_id {A : Type} (key : A -> Q) (l : list A) :
  StronglySorted (desc key) l ->
  array_sort (fun a b => key b - key a) l = l.
Proof.
  intros Hs. symmetry.
  apply (stable_desc_sort_unique key l).
  - constructor; [apply Permutation_refl | exact Hs | reflexivity].
  - apply array_sort_contract.
Qed.

(** X1.  When the stores arrive in descending order of demand, as the
    query of the endpoint orders them, the sort changes nothing: the
    stores are assigned in the order of the input. *)
Theorem sorted_input_keeps_its_order (ts : list tienda)
    (vs : list vehiculo) :
  StronglySorted (desc combis_promedio) ts ->
  tiendasOrdenadas ts = ts
  /\ optimizarRutasBasico ts vs = rutas_desde ts vs.
Proof.
  intros Hs.
  assert (E : tiendasOrdenadas ts = ts)
    by exact (array_sort_sorted_id combis_promedio ts Hs).
  split; [exact E |]. unfold optimizarRutasBasico. rewrite E. reflexivity.
Qed.

Lemma sorted_input_keeps_its_order_witness :
  tiendasOrdenadas ej_tiendas = ej_tiendas
  /\ optimizarRutasBasico ej_tiendas ej_vehiculos
     = rutas_desde ej_tiendas ej_vehiculos.
Proof.
  apply (sorted_input_keeps_its_order ej_tiendas ej_vehiculos).
  unfold ej_tiendas.
  repeat (constructor; [| repeat constructor; unfold desc; cbn; lra]).
  constructor.
Defined.

(** ** The routes and the vehicles *)

Lemma asignar_vehiculo_de (t : tienda) (rs : list ruta) :
  List.map vehiculo_de (asignar t rs) = List.map vehiculo_de rs.
Proof.
  induction rs as [| r rs IH]; [reflexivity |].
  cbn [asignar]. destruct (cabe r t); cbn [List.map].
  - reflexivity.
  - rewrite IH. reflexivity.
Qed.

Lemma asignar_todas_vehiculo_de (l : list tienda) :
  forall rs,
    List.map vehiculo_de (asignar_todas l rs) = List.map vehiculo_de rs.
Proof.
  unfold asignar_todas.
  induction l as [| t l IH]; intros rs; cbn [fold_left]; [reflexivity |].
  rewrite IH. apply asignar_vehiculo_de.
Qed.

Lemma inicial_vehiculo_de (vs : list vehiculo) :
  List.map vehiculo_de (List.map ruta_inicial vs)
  = List.map datos_vehiculo vs.
Proof.
  induction vs as [| v vs IH]; [reflexivity |].
  cbn [List.map]. rewrite IH. reflexivity.
Qed.

Lemma sublist_map_filter {A B : Type} (f : A -> B) (p : A -> bool)
    (l : list A) :
  sublist (List.map f (List.filter p l)) (List.map f l).
Proof.
  induction l as [| x l IH]; cbn [List.filter List.map].
  - constructor.
  - destruct (p x); cbn [List.map].
    + apply sublist_skip. exact IH.
    + apply sublist_cons. exact IH.
Qed.

Lemma rutas_desde_sublist (l : list tienda) (vs : list vehiculo) :
  sublist (List.map vehiculo_de (rutas_desde l vs))
          (List.map datos_vehiculo vs).
Proof.
  unfold rutas_desde.
  rewrite <- inicial_vehiculo_de.
  rewrite <- (asignar_todas_vehiculo_de l (List.map ruta_inicial vs)).
  apply sublist_map_filter.
Qed.

(** X2.  The routes returned are routes of the vehicles given, in the
    order of the vehicles and at most one per vehicle: the identifiers,
    names and capacities of the routes are those of a subsequence of the
    list of vehicles. *)
Theorem routes_follow_the_vehicles (ts : list tienda) (vs : list vehiculo) :
  sublist (List.map vehiculo_de (optimizarRutasBasico ts vs))
          (List.map datos_vehiculo vs).
Proof. apply rutas_desde_sublist. Qed.

Lemma length_asignadas_no_vacias (rs : list ruta) :
  Forall (fun r => tiendas r <> []) rs ->
  (List.length rs <= List.length (asignadas rs))%nat.
Proof.
  induction 1 as [| r rs Hr Hrs IH]; [reflexivity |].
  rewrite asignadas_cons, List.length_app. cbn [List.length].
  destruct (tiendas r); [contradiction | cbn [List.length]; lia].
Qed.

Lemma rutas_desde_length_asignadas (l : list tienda) (vs : list vehiculo) :
  (List.length (asignadas (rutas_desde l vs)) <= List.length l)%nat.
Proof.
  destruct (rutas_desde_asignadas l vs) as [rest H].
  apply Permutation_length in H. rewrite List.length_app in H. lia.
Qed.

Lemma tiendasOrdenadas_length (ts : list tienda) :
  List.length (tiendasOrdenadas ts) = List.length ts.
Proof.
  symmetry. apply Permutation_length.
  apply (array_sort_perm combis_promedio).
Qed.

Lemma optimizar_length_stores (ts : list tienda) (vs : list vehiculo) :
  (List.length (asignadas (optimizarRutasBasico ts vs))
   <= List.length ts)%nat.
Proof.
  unfold optimizarRutasBasico.
  rewrite <- (tiendasOrdenadas_length ts).
  apply rutas_desde_length_asignadas.
Qed.

Lemma optimizar_length_routes (ts : list tienda) (vs : list vehiculo) :
  (List.length (optimizarRutasBasico ts vs) <= List.length vs)%nat
  /\ (List.length (optimizarRutasBasico ts vs) <= List.length ts)%nat.
Proof.
  split.
  - pose proof (sublist_length _ _ (rutas_desde_sublist
                                      (tiendasOrdenadas ts) vs)) as H.
    rewrite !List.length_map in H. exact H.
  - etransitivity; [| apply optimizar_length_stores].
    apply length_asignadas_no_vacias. apply rutas_desde_no_vacia.
Qed.

(** X3.  No route is returned empty, so there are at most as many routes
    as vehicles and at most as many as stores. *)
Theorem routes_at_most_vehicles_and_stores (ts : list tienda)
    (vs : list vehiculo) :
  Forall (fun r => tiendas r <> []) (optimizarRutasBasico ts vs)
  /\ (List.length (optimizarRutasBasico ts vs) <= List.length vs)%nat
  /\ (List.length (optimizarRutasBasico ts vs) <= List.length ts)%nat.
Proof.
  split; [apply rutas_desde_no_vacia | apply optimizar_length_routes].
Qed.

(** ** One step of the loop, with a property that changes *)

Lemma asignar_Forall_step (P Q : ruta -> Prop) (t : tienda)
    (rs : list ruta) :
  (forall r, P r -> Q r) ->
  (forall r, P r -> cabe r t = true -> Q (cargar r t)) ->
  Forall P rs -> Forall Q (asignar t rs).
Proof.
  intros Hkeep Hload. induction 1 as [| r rs Hr Hrs IH]; cbn [asignar].
  - constructor.
  - destruct (cabe r t) eqn:E.
    + constructor; [apply Hload; assumption |].
      eapply List.Forall_impl; [exact Hkeep | exact Hrs].
    + constructor; [apply Hkeep; exact Hr | exact IH].
Qed.

(** A property kept by the loads of the stores of [l] holds at the end. *)
Lemma asignar_todas_Forall_in (P : ruta -> Prop) (l : list tienda) :
  (forall r t, In t l -> P r -> cabe r t = true -> P (cargar r t)) ->
  forall rs, Forall P rs -> Forall P (asignar_todas l rs).
Proof.
  unfold asignar_todas.
  induction l as [| t l IH]; intros Hload rs H; cbn [fold_left].
  - exact H.
  - apply IH.
    + intros r u Hu. apply Hload. right. exact Hu.
    + apply (asignar_Forall_step P P); [tauto | | exact H].
      intros r. apply Hload. left. reflexivity.
Qed.

(** ** The stores of a route are in descending order of demand *)

Lemma StronglySorted_snoc {A : Type} (R : A -> A -> Prop) (l : list A)
    (x : A) :
  StronglySorted R l -> Forall (fun y => R y x) l ->
  StronglySorted R (l ++ [x]).
Proof.
  induction 1 as [| y l Hs IH Hy]; intros Hx; cbn [List.app].
  - constructor; constructor.
  - inversion Hx as [| ? ? Hyx Hlx]; subst.
    constructor; [apply IH; exact Hlx |].
    apply List.Forall_app. split; [exact Hy |].
    constructor; [exact Hyx | constructor].
Qed.

Lemma asignar_todas_descending (l : list tienda) :
  StronglySorted (desc combis_promedio) l ->
  forall rs,
    Forall (fun r =>
              StronglySorted (desc combis_promedio) (tiendas r)
              /\ Forall (fun s => Forall (desc combis_promedio s) l)
                        (tiendas r)) rs ->
    Forall (fun r => StronglySorted (desc combis_promedio) (tiendas r))
           (asignar_todas l rs).
Proof.
  unfold asignar_todas.
  induction 1 as [| t l Hs IH Ht]; intros rs H; cbn [fold_left].
  - eapply List.Forall_impl; [| exact H]. intros r [Hr _]. exact Hr.
  - apply IH. eapply asignar_Forall_step; [| | exact H].
    + intros r [Hr Hall]. split; [exact Hr |].
      eapply List.Forall_impl; [| exact Hall].
      intros s Hsl. inversion Hsl; assumption.
    + intros r [Hr Hall] _. cbn [cargar tiendas]. split.
      * apply StronglySorted_snoc; [exact Hr |].
        eapply List.Forall_impl; [| exact Hall].
        intros s Hsl. inversion Hsl; assumption.
      * apply List.Forall_app. split.
        { eapply List.Forall_impl; [| exact Hall].
          intros s Hsl. inversion Hsl; assumption. }
        { constructor; [exact Ht | constructor]. }
Qed.

(** X4.  Within every route returned, the stores are listed in descending
    order of demand: a store is never followed by a larger one. *)
Theorem route_stores_descending (ts : list tienda) (vs : list vehiculo) :
  Forall (fun r => StronglySorted (desc combis_promedio) (tiendas r))
         (optimizarRutasBasico ts vs).
Proof.
  unfold optimizarRutasBasico, rutas_desde.
  apply List.Forall_forall. intros r Hr.
  apply filter_In in Hr. destruct Hr as [Hr _].
  revert r Hr. apply List.Forall_forall.
  apply asignar_todas_descending.
  - apply (array_sort_sorted combis_promedio).
  - apply List.Forall_forall. intros r Hr.
    apply in_map_iff in Hr. destruct Hr as [v [<- _]].
    split; constructor.
Qed.

(** ** Sums of rationals over a list *)

Section SumFacts.
Context {A : Type}.
Implicit Types (f g : A -> Q) (l : list A).


Lemma fold_sum_nonneg f l :
  Forall (fun x => 0 <= f x) l ->
  forall a, 0 <= a -> 0 <= fold_left (fun s x => s + f x) l a.
Proof.
  induction 1 as [| x l Hx Hl IH]; intros a Ha; cbn [fold_left].
  - exact Ha.
  - apply IH. lra.
Qed.

(** Adding numbers that are not negative does not go below the start. *)
Lemma fold_sum_ge_start f l :
  Forall (fun x => 0 <= f x) l ->
  forall a, a <= fold_left (fun s x => s + f x) l a.
Proof.
  induction 1 as [| x l Hx Hl IH]; intros a; cbn [fold_left].
  - apply Qle_refl.
  - apply (Qle_trans _ (a + f x)); [lra | apply IH].
Qed.

End SumFacts.

Lemma suma_combis_nonneg (l : list tienda) :
  Forall (fun t => 0 <= combis_promedio t) l -> 0 <= suma_combis l.
Proof.
  intros H. apply (fold_sum_nonneg combis_promedio l H). lra.
Qed.

Lemma Forall_perm_demands (l l' : list tienda) :
  Permutation l l' ->
  Forall (fun t => 0 <= combis_promedio t) l ->
  Forall (fun t => 0 <= combis_promedio t) l'.
Proof. intros Hp H. exact (Permutation_Forall Hp H). Qed.

Lemma ordenadas_nonneg (ts : list tienda) :
  Forall (fun t => 0 <= combis_promedio t) ts ->
  Forall (fun t => 0 <= combis_promedio t) (tiendasOrdenadas ts).
Proof.
  apply Forall_perm_demands. apply (array_sort_perm combis_promedio).
Qed.

(** ** A store left out fits nowhere *)

Lemma asignar_in_mono (u s : tienda) (rs : list ruta) :
  In s (asignadas rs) -> In s (asignadas (asignar u rs)).
Proof.
  induction rs as [| r rs IH]; cbn [asignar]; [tauto |].
  destruct (cabe r u); rewrite !asignadas_cons; intros H;
    apply in_app_or in H; apply in_or_app.
  - destruct H as [H | H]; [left | right; exact H].
    cbn [cargar tiendas]. apply in_or_app. left. exact H.
  - destruct H as [H | H]; [left; exact H | right; apply IH; exact H].
Qed.

Lemma asignar_todas_in_mono (l : list tienda) (s : tienda) :
  forall rs,
    In s (asignadas rs) -> In s (asignadas (asignar_todas l rs)).
Proof.
  unfold asignar_todas.
  induction l as [| u l IH]; intros rs H; cbn [fold_left]; [exact H |].
  apply IH. apply asignar_in_mono. exact H.
Qed.

(** Either the store is loaded, or no route has room and nothing
    changes. *)
Lemma asignar_cases (t : tienda) (rs : list ruta) :
  In t (asignadas (asignar t rs))
  \/ (asignar t rs = rs /\ Forall (fun r => cabe r t = false) rs).
Proof.
  induction rs as [| r rs IH]; cbn [asignar].
  - right. split; [reflexivity | constructor].
  - destruct (cabe r t) eqn:E.
    + left. rewrite asignadas_cons. apply in_or_app. left.
      cbn [cargar tiendas]. apply in_or_app. right. left. reflexivity.
    + destruct IH as [IH | [IH1 IH2]].
      * left. rewrite asignadas_cons. apply in_or_app. right. exact IH.
      * right. rewrite IH1. split; [reflexivity |].
        constructor; assumption.
Qed.

Lemma no_cabe_cargar (r : ruta) (t u : tienda) :
  0 <= combis_promedio u -> cabe r t = false -> cabe (cargar r u) t = false.
Proof.
  unfold cabe. cbn [cargar capacidad_usada capacidad_maxima].
  intros Hu H.
  destruct (Qle_bool (capacidad_usada r + combis_promedio u
                      + combis_promedio t) (capacidad_maxima r)) eqn:E;
    [| reflexivity].
  apply Qle_bool_iff in E.
  assert (Hle : capacidad_usada r + combis_promedio t <= capacidad_maxima r)
    by lra.
  apply Qle_bool_iff in Hle. congruence.
Qed.

Lemma asignar_todas_no_cabe (l : list tienda) (t : tienda) :
  Forall (fun u => 0 <= combis_promedio u) l ->
  forall rs,
    Forall (fun r => cabe r t = false) rs ->
    Forall (fun r => cabe r t = false) (asignar_todas l rs).
Proof.
  intros Hl rs H. apply asignar_todas_Forall_in; [| exact H].
  intros r u Hu Hr _. apply no_cabe_cargar; [| exact Hr].
  rewrite List.Forall_forall in Hl. apply Hl. exact Hu.
Qed.

Lemma asignar_todas_left_out (l : list tienda) (t : tienda) :
  Forall (fun u => 0 <= combis_promedio u) l ->
  forall rs,
    In t l ->
    ~ In t (asignadas (asignar_todas l rs)) ->
    Forall (fun r => cabe r t = false) (asignar_todas l rs).
Proof.
  induction 1 as [| u l Hu Hl IH]; intros rs Hin Hout; [contradiction |].
  change (asignar_todas (u :: l) rs) with (asignar_todas l (asignar u rs))
    in *.
  destruct Hin as [-> | Hin]; [| apply IH; assumption].
  destruct (asignar_cases t rs) as [Hp | [E Hno]].
  - exfalso. apply Hout. apply asignar_todas_in_mono. exact Hp.
  - rewrite E. apply asignar_todas_no_cabe; assumption.
Qed.

Lemma no_cabe_lt (r : ruta) (t : tienda) :
  cabe r t = false ->
  capacidad_maxima r < capacidad_usada r + combis_promedio t.
Proof.
  unfold cabe. intros H.
  destruct (Qlt_le_dec (capacidad_maxima r)
                       (capacidad_usada r + combis_promedio t))
    as [Hlt | Hle]; [exact Hlt |].
  apply Qle_bool_iff in Hle. congruence.
Qed.

Lemma asignar_todas_suma (l : list tienda) (vs : list vehiculo) :
  Forall (fun r => capacidad_usada r = suma_combis (tiendas r))
         (asignar_todas l (List.map ruta_inicial vs)).
Proof.
  apply asignar_todas_Forall.
  - intros r t H _. unfold suma_combis in *.
    cbn [cargar tiendas capacidad_usada].
    rewrite fold_left_app. cbn [fold_left]. rewrite <- H. reflexivity.
  - apply List.Forall_forall. intros r Hr.
    apply in_map_iff in Hr. destruct Hr as [v [<- _]]. reflexivity.
Qed.

(** X5.  With demands that are not negative, a store of the input that is
    in no route fits nowhere: added to the load of any route returned it
    exceeds the capacity, and every vehicle that was left without a route
    is smaller than the store alone. *)
Theorem unassigned_store_fits_nowhere (ts : list tienda)
    (vs : list vehiculo) (t : tienda) :
  Forall (fun s => 0 <= combis_promedio s) ts ->
  In t ts ->
  ~ In t (asignadas (optimizarRutasBasico ts vs)) ->
  Forall (fun r => capacidad_maxima r
                   < capacidad_usada r + combis_promedio t)
         (optimizarRutasBasico ts vs)
  /\ Forall (fun v =>
               In (datos_vehiculo v)
                  (List.map vehiculo_de (optimizarRutasBasico ts vs))
               \/ capacidad_combis v < combis_promedio t) vs.
Proof.
  intros Hnn Hin Hout.
  unfold optimizarRutasBasico, rutas_desde in *.
  rewrite asignadas_filter in Hout.
  set (final := asignar_todas (tiendasOrdenadas ts)
                              (List.map ruta_inicial vs)) in *.
  assert (Hno : Forall (fun r => cabe r t = false) final).
  { apply asignar_todas_left_out; [apply ordenadas_nonneg; exact Hnn | |
                                     exact Hout].
    eapply Permutation_in; [apply (array_sort_perm combis_promedio) |].
    exact Hin. }
  rewrite List.Forall_forall in Hno.
  split.
  - apply List.Forall_forall. intros r Hr.
    apply filter_In in Hr. destruct Hr as [Hr _].
    apply no_cabe_lt. apply Hno. exact Hr.
  - apply List.Forall_forall. intros v Hv.
    assert (Hd : In (datos_vehiculo v) (List.map vehiculo_de final)).
    { unfold final. rewrite asignar_todas_vehiculo_de, inicial_vehiculo_de.
      apply in_map. exact Hv. }
    apply in_map_iff in Hd. destruct Hd as [r [Er Hr]].
    destruct (no_vacia r) eqn:En.
    + left. rewrite <- Er. apply in_map. apply filter_In. tauto.
    + right. pose proof (no_cabe_lt r t (Hno r Hr)) as Hlt.
      pose proof (asignar_todas_suma (tiendasOrdenadas ts) vs) as Hs.
      rewrite List.Forall_forall in Hs. specialize (Hs r Hr).
      unfold no_vacia in En.
      destruct (tiendas r) eqn:Et; [| discriminate].
      rewrite Hs in Hlt. cbn in Hlt.
      assert (Ec : capacidad_maxima r = capacidad_combis v)
        by (unfold vehiculo_de, datos_vehiculo in Er; congruence).
      rewrite <- Ec. lra.
Qed.

Lemma unassigned_store_fits_nowhere_witness :
  Forall (fun r => capacidad_maxima r
                   < capacidad_usada r + combis_promedio (ej_tienda "s2" 5))
         (optimizarRutasBasico (ej_tiendas ++ [ej_tienda "s9" 7])
                               ej_vehiculos).
Proof.
  apply (unassigned_store_fits_nowhere
           (ej_tiendas ++ [ej_tienda "s9" 7]) ej_vehiculos
           (ej_tienda "s2" 5)).
  - repeat constructor; cbn; lra.
  - cbn. tauto.
  - intros H. cbn in H.
    repeat (destruct H as [H | H]; [discriminate H |]). exact H.
Defined.

(** ** One vehicle that can carry everything *)

Lemma asignar_placed (t : tienda) (rs : list ruta) :
  List.Exists (fun r => cabe r t = true) rs ->
  Permutation (asignadas (asignar t rs)) (t :: asignadas rs).
Proof.
  induction rs as [| r rs IH]; intros H; [inversion H |].
  cbn [asignar]. destruct (cabe r t) eqn:E.
  - rewrite !asignadas_cons. cbn [cargar tiendas].
    rewrite <- List.app_assoc. cbn [List.app].
    apply Permutation_sym.
    apply (Permutation_middle (tiendas r) (asignadas rs) t).
  - inversion H as [? ? Hr | ? ? Hrs]; subst; [congruence |].
    rewrite !asignadas_cons.
    eapply perm_trans; [apply Permutation_app_head; apply IH; exact Hrs |].
    apply Permutation_sym.
    apply (Permutation_middle (tiendas r) (asignadas rs) t).
Qed.

(** A route loaded with at most [a] whose capacity is at least [K] is
    still there after the store [t], loaded with at most [a + t], whichever
    route the store went to. *)
Lemma asignar_room (t : tienda) (a K : Q) (rs : list ruta) :
  0 <= combis_promedio t ->
  a + combis_promedio t <= K ->
  List.Exists (fun r => capacidad_usada r <= a /\ K <= capacidad_maxima r)
              rs ->
  List.Exists (fun r => capacidad_usada r <= a + combis_promedio t
                        /\ K <= capacidad_maxima r)
              (asignar t rs).
Proof.
  intros Ht HK.
  induction rs as [| r rs IH]; intros H; [inversion H |].
  cbn [asignar]. destruct (cabe r t) eqn:E.
  - inversion H as [? ? [Hu Hc] | ? ? Hrs]; subst.
    + apply List.Exists_cons_hd.
      cbn [cargar capacidad_usada capacidad_maxima]. split; [lra | exact Hc].
    + apply List.Exists_cons_tl.
      eapply List.Exists_impl; [| exact Hrs]. cbv beta.
      intros r' [Hu Hc]. split; [lra | exact Hc].
  - inversion H as [? ? [Hu Hc] | ? ? Hrs]; subst.
    + exfalso. unfold cabe in E.
      assert (Hle : capacidad_usada r + combis_promedio t
                    <= capacidad_maxima r) by lra.
      apply Qle_bool_iff in Hle. congruence.
    + apply List.Exists_cons_tl. apply IH. exact Hrs.
Qed.

Lemma room_cabe (t : tienda) (a K : Q) (rs : list ruta) :
  a + combis_promedio t <= K ->
  List.Exists (fun r => capacidad_usada r <= a /\ K <= capacidad_maxima r)
              rs ->
  List.Exists (fun r => cabe r t = true) rs.
Proof.
  intros HK H. eapply List.Exists_impl; [| exact H]. cbv beta.
  intros r [Hu Hc]. unfold cabe. apply Qle_bool_iff. lra.
Qed.

(** [a] is the sum of the demands of the stores gone through so far, in
    the order of the loop; some route is loaded with at most [a] and can
    take the sum of all of them. *)
Lemma asignar_todas_all (l : list tienda) :
  Forall (fun t => 0 <= combis_promedio t) l ->
  forall (a : Q) (rs : list ruta),
    List.Exists
      (fun r => capacidad_usada r <= a
                /\ fold_left (fun s t => s + combis_promedio t) l a
                   <= capacidad_maxima r) rs ->
    Permutation (asignadas (asignar_todas l rs)) (asignadas rs ++ l).
Proof.
  induction 1 as [| t l Ht Hl IH]; intros a rs H.
  - cbn. rewrite List.app_nil_r. apply Permutation_refl.
  - change (asignar_todas (t :: l) rs) with (asignar_todas l (asignar t rs)).
    cbn [fold_left] in H.
    pose proof (fold_sum_ge_start combis_promedio l Hl
                  (a + combis_promedio t)) as HK.
    eapply perm_trans;
      [apply (IH (a + combis_promedio t));
       apply (asignar_room t a); assumption |].
    eapply perm_trans;
      [apply Permutation_app_tail; apply asignar_placed;
       exact (room_cabe t a _ rs HK H) |].
    cbn [List.app]. apply Permutation_middle.
Qed.

Lemma tiendasAsignadas_acc (rs : list ruta) :
  forall n,
    fold_left (fun sum r => (sum + List.length (tiendas r))%nat) rs n
    = (n + List.length (asignadas rs))%nat.
Proof.
  induction rs as [| r rs IH]; intros n; cbn [fold_left].
  - cbn. lia.
  - rewrite IH, asignadas_cons, List.length_app. lia.
Qed.

Lemma tiendasAsignadas_length (rs : list ruta) :
  tiendasAsignadas rs = List.length (asignadas rs).
Proof. unfold tiendasAsignadas. rewrite tiendasAsignadas_acc. lia. Qed.

(** X6.  With demands that are not negative, if the demands added up
    largest first, in the order of the sort, come to no more than the
    capacity of some vehicle, no store is left out: the stores of the
    routes are the stores of the input, and the metrics count all of them
    as assigned. *)
Theorem all_assigned_when_one_vehicle_suffices (ts : list tienda)
    (vs : list vehiculo) (v : vehiculo) :
  Forall (fun t => 0 <= combis_promedio t) ts ->
  In v vs ->
  suma_combis (tiendasOrdenadas ts) <= capacidad_combis v ->
  Permutation (asignadas (optimizarRutasBasico ts vs)) ts
  /\ tiendas_asignadas
       (calcularMetricas (optimizarRutasBasico ts vs) (List.length ts))
     = List.length ts.
Proof.
  intros Hnn Hv Hcap.
  assert (Hp : Permutation (asignadas (optimizarRutasBasico ts vs)) ts).
  { unfold optimizarRutasBasico, rutas_desde. rewrite asignadas_filter.
    eapply perm_trans.
    - apply (asignar_todas_all _ (ordenadas_nonneg ts Hnn) 0).
      apply List.Exists_exists. exists (ruta_inicial v). split.
      + apply in_map. exact Hv.
      + cbn [ruta_inicial capacidad_usada capacidad_maxima].
        split; [apply Qle_refl | exact Hcap].
    - rewrite asignadas_inicial. cbn [List.app].
      apply Permutation_sym. apply (array_sort_perm combis_promedio). }
  split; [exact Hp |].
  cbn [calcularMetricas metricas_de tiendas_asignadas].
  rewrite tiendasAsignadas_length. apply Permutation_length. exact Hp.
Qed.

Lemma all_assigned_when_one_vehicle_suffices_witness :
  Permutation
    (asignadas (optimizarRutasBasico ej_desordenadas
                  [ej_vehiculo "A" 10; ej_vehiculo "B" 20]))
    ej_desordenadas.
Proof.
  apply (all_assigned_when_one_vehicle_suffices ej_desordenadas
           [ej_vehiculo "A" 10; ej_vehiculo "B" 20] (ej_vehiculo "B" 20)).
  - repeat constructor; cbn; lra.
  - right. left. reflexivity.
  - vm_compute. intros H. discriminate H.
Defined.

(** ** Loads and efficiencies are within their range *)

Lemma in_asignadas (rs : list ruta) (r : ruta) (s : tienda) :
  In r rs -> In s (tiendas r) -> In s (asignadas rs).
Proof.
  intros Hr Hs. unfold asignadas. apply in_concat.
  exists (tiendas r). split; [apply in_map; exact Hr | exact Hs].
Qed.

Lemma optimizar_stores_from_input (ts : list tienda) (vs : list vehiculo)
    (r : ruta) (s : tienda) :
  In r (optimizarRutasBasico ts vs) -> In s (tiendas r) -> In s ts.
Proof.
  intros Hr Hs. unfold optimizarRutasBasico in *.
  destruct (rutas_desde_asignadas (tiendasOrdenadas ts) vs) as [rest Hp].
  eapply Permutation_in;
    [apply Permutation_sym; apply (array_sort_perm combis_promedio) |].
  eapply Permutation_in; [exact Hp |].
  apply in_or_app. left. eapply in_asignadas; eassumption.
Qed.

Lemma optimizar_used_nonneg (ts : list tienda) (vs : list vehiculo) :
  Forall (fun t => 0 <= combis_promedio t) ts ->
  Forall (fun r => 0 <= capacidad_usada r) (optimizarRutasBasico ts vs).
Proof.
  intros Hnn. apply List.Forall_forall. intros r Hr.
  pose proof (rutas_desde_suma (tiendasOrdenadas ts) vs) as Hs.
  rewrite List.Forall_forall in Hs, Hnn.
  rewrite (Hs r Hr). apply suma_combis_nonneg.
  apply List.Forall_forall. intros s Hin. apply Hnn.
  exact (optimizar_stores_from_input ts vs r s Hr Hin).
Qed.

Lemma optimizar_within (ts : list tienda) (vs : list vehiculo) :
  Forall (fun r => capacidad_usada r <= capacidad_maxima r)
         (optimizarRutasBasico ts vs).
Proof.
  unfold optimizarRutasBasico.
  pose proof (rutas_desde_dentro (tiendasOrdenadas ts) vs) as Hd.
  pose proof (rutas_desde_no_vacia (tiendasOrdenadas ts) vs) as Hn.
  rewrite List.Forall_forall in *. intros r Hr.
  destruct (Hd r Hr) as [E | Hle]; [| exact Hle].
  exfalso. exact (Hn r Hr E).
Qed.

Lemma eficiencia_de_range (r : ruta) :
  0 <= capacidad_usada r -> capacidad_usada r <= capacidad_maxima r ->
  0 < capacidad_maxima r ->
  exists e, eficiencia_de r = Fin e /\ 0 <= e /\ e <= 100.
Proof.
  intros H0 H1 Hc. unfold eficiencia_de, js_div.
  destruct (Qeq_bool (capacidad_maxima r) 0) eqn:E.
  - apply Qeq_bool_iff in E. lra.
  - cbn [js_mul]. eexists. split; [reflexivity |].
    assert (Ha : 0 <= capacidad_usada r / capacidad_maxima r)
      by (apply Qle_shift_div_l; [exact Hc | lra]).
    assert (Hb : capacidad_usada r / capacidad_maxima r <= 1)
      by (apply Qle_shift_div_r; [exact Hc | lra]).
    split; lra.
Qed.

(** X7.  With demands that are not negative, the used load of every route
    returned is not negative, and the efficiency of a route of positive
    capacity is a number between 0 and 100. *)
Theorem loads_and_efficiencies_in_range (ts : list tienda)
    (vs : list vehiculo) :
  Forall (fun t => 0 <= combis_promedio t) ts ->
  Forall (fun r =>
            0 <= capacidad_usada r
            /\ (0 < capacidad_maxima r ->
                exists e, eficiencia r = Fin e /\ 0 <= e /\ e <= 100))
         (optimizarRutasBasico ts vs).
Proof.
  intros Hnn.
  pose proof (optimizar_used_nonneg ts vs Hnn) as H0.
  pose proof (optimizar_within ts vs) as H1.
  pose proof (rutas_desde_eficiencia (tiendasOrdenadas ts) vs) as He.
  pose proof (rutas_desde_no_vacia (tiendasOrdenadas ts) vs) as Hn.
  fold (optimizarRutasBasico ts vs) in He, Hn.
  rewrite List.Forall_forall in *. intros r Hr.
  split; [apply H0; exact Hr |]. intros Hc.
  destruct (He r Hr) as [E | E]; [exfalso; exact (Hn r Hr E) |].
  rewrite E. apply eficiencia_de_range; auto.
Qed.

Lemma loads_and_efficiencies_in_range_witness :
  Forall (fun r =>
            0 <= capacidad_usada r
            /\ (0 < capacidad_maxima r ->
                exists e, eficiencia r = Fin e /\ 0 <= e /\ e <= 100))
         (optimizarRutasBasico ej_tiendas ej_vehiculos).
Proof.
  apply (loads_and_efficiencies_in_range ej_tiendas ej_vehiculos).
  repeat constructor; cbn; lra.
Defined.

(** ** The metrics of the routes returned *)


Lemma optimizar_usada_nonneg (ts : list tienda) (vs : list vehiculo) :
  Forall (fun t => 0 <= combis_promedio t) ts ->
  0 <= capacidadUsada (optimizarRutasBasico ts vs).
Proof.
  intros Hnn. unfold capacidadUsada.
  apply fold_sum_nonneg; [apply optimizar_used_nonneg; exact Hnn | lra].
Qed.




(** X9.  When [calcularMetricas] is given the routes returned for [ts] and
    the number of stores of [ts], as the endpoint does, the stores it
    counts as assigned and the stores left out add up to the total. *)
Theorem assigned_plus_left_out_is_total (ts : list tienda)
    (vs : list vehiculo) :
  let m := calcularMetricas (optimizarRutasBasico ts vs) (List.length ts) in
  exists unassigned,
    Permutation (asignadas (optimizarRutasBasico ts vs) ++ unassigned) ts
    /\ (tiendas_asignadas m + List.length unassigned
        = tiendas_totales m)%nat.
Proof.
  cbn zeta. unfold optimizarRutasBasico.
  destruct (rutas_desde_asignadas (tiendasOrdenadas ts) vs) as [rest H].
  assert (Hts : Permutation
                  (asignadas (rutas_desde (tiendasOrdenadas ts) vs) ++ rest)
                  ts).
  { eapply perm_trans; [exact H |].
    apply Permutation_sym. apply (array_sort_perm combis_promedio). }
  exists rest. split; [exact Hts |].
  cbn [calcularMetricas metricas_de tiendas_asignadas tiendas_totales].
  rewrite tiendasAsignadas_length.
  apply Permutation_length in Hts. rewrite List.length_app in Hts.
  exact Hts.
Qed.

Lemma total_pos_length (rutas : list ruta) :
  0 < totalCapacidad rutas -> (0 < List.length rutas)%nat.
Proof.
  destruct rutas; cbn; [intros H; lra | lia].
Qed.

Lemma ahorro_range (total usada : Q) (asignadas n totalTiendas : nat) :
  0 <= usada -> 0 < total -> (0 < n)%nat ->
  exists z : Z,
    jsnum_eq
      (ahorro_potencial (metricas_de total usada asignadas n totalTiendas))
      (Fin (inject_Z z))
    /\ (0 <= z <= Z.of_nat n)%Z.
Proof.
  intros H0 Ht Hn. cbn [metricas_de ahorro_potencial].
  assert (Hnq : 0 < inject_Z (Z.of_nat n)).
  { change 0 with (inject_Z 0). rewrite <- Zlt_Qlt. lia. }
  assert (Havg : 0 < total / inject_Z (Z.of_nat n))
    by (apply Qlt_shift_div_l; [exact Hnq | lra]).
  unfold Fin_nat, js_div at 2.
  destruct (Qeq_bool (inject_Z (Z.of_nat n)) 0) eqn:E1;
    [apply Qeq_bool_iff in E1; lra |].
  unfold js_div.
  destruct (Qeq_bool (total / inject_Z (Z.of_nat n)) 0) eqn:E2;
    [apply Qeq_bool_iff in E2; lra |].
  cbn [Math_ceil js_sub].
  set (x := usada / (total / inject_Z (Z.of_nat n))).
  assert (Hx0 : 0 <= x)
    by (apply Qle_shift_div_l; [exact Havg | lra]).
  assert (Hc0 : (0 <= Qceiling x)%Z).
  { rewrite <- (Qceiling_Z 0). apply Qceiling_resp_le. exact Hx0. }
  unfold Math_max.
  destruct (Qle_bool 0 (inject_Z (Z.of_nat n) - inject_Z (Qceiling x)))
    eqn:E.
  - exists (Z.of_nat n - Qceiling x)%Z. split.
    + cbn [jsnum_eq]. unfold Zminus.
      rewrite inject_Z_plus, inject_Z_opp. reflexivity.
    + apply Qle_bool_iff in E.
      assert (Hq : inject_Z (Qceiling x) <= inject_Z (Z.of_nat n)) by lra.
      rewrite <- Zle_Qle in Hq. lia.
  - exists 0%Z. split; [cbn [jsnum_eq]; reflexivity | lia].
Qed.

(** X10.  With demands that are not negative and routes of positive total
    capacity, the potential saving is a whole number between 0 and the
    number of routes. *)
Theorem potential_saving_in_range (ts : list tienda) (vs : list vehiculo)
    (n : nat) :
  Forall (fun t => 0 <= combis_promedio t) ts ->
  let rutas := optimizarRutasBasico ts vs in
  0 < totalCapacidad rutas ->
  exists z : Z,
    jsnum_eq (ahorro_potencial (calcularMetricas rutas n))
             (Fin (inject_Z z))
    /\ (0 <= z <= Z.of_nat (List.length rutas))%Z.
Proof.
  intros Hnn rutas Ht. unfold calcularMetricas.
  apply ahorro_range.
  - apply optimizar_usada_nonneg. exact Hnn.
  - exact Ht.
  - apply total_pos_length. exact Ht.
Qed.

Lemma potential_saving_in_range_witness :
  exists z : Z,
    jsnum_eq
      (ahorro_potencial
         (calcularMetricas
            (optimizarRutasBasico ej_desordenadas ej_vehiculos) 4))
      (Fin (inject_Z z))
    /\ (0 <= z
        <= Z.of_nat
             (List.length
                (optimizarRutasBasico ej_desordenadas ej_vehiculos)))%Z.
Proof.
  apply (potential_saving_in_range ej_desordenadas ej_vehiculos 4).
  - repeat constructor; cbn; lra.
  - vm_compute. reflexivity.
Defined.

Lemma ahorro_nan (total usada : Q) (asignadas n totalTiendas : nat) :
  total == 0 -> usada == 0 ->
  eficiencia_llenado (metricas_de total usada asignadas n totalTiendas) = NaN
  /\ ahorro_potencial (metricas_de total usada asignadas n totalTiendas)
     = NaN.
Proof.
  intros Ht Hu. cbn [metricas_de eficiencia_llenado ahorro_potencial].
  assert (Et : Qeq_bool total 0 = true) by (apply Qeq_bool_iff; exact Ht).
  assert (Eu : Qeq_bool usada 0 = true) by (apply Qeq_bool_iff; exact Hu).
  split.
  - unfold js_div. rewrite Et, Eu. reflexivity.
  - unfold Fin_nat, js_div at 2.
    destruct (Qeq_bool (inject_Z (Z.of_nat n)) 0) eqn:En.
    + rewrite Et. reflexivity.
    + unfold js_div.
      assert (E0 : Qeq_bool (total / inject_Z (Z.of_nat n)) 0 = true).
      { apply Qeq_bool_iff. rewrite Ht. unfold Qdiv. lra. }
      rewrite E0, Eu. reflexivity.
Qed.

(** X11.  Whenever the routes given to [calcularMetricas] have no capacity
    in total and no load, as when there is no route at all, the potential
    saving and the fill rate are both [NaN]: [Math.max(0, ...)] does not
    turn [NaN] into 0. *)
Theorem no_capacity_gives_nan (rutas : list ruta) (n : nat) :
  totalCapacidad rutas == 0 -> capacidadUsada rutas == 0 ->
  eficiencia_llenado (calcularMetricas rutas n) = NaN
  /\ ahorro_potencial (calcularMetricas rutas n) = NaN.
Proof. intros Ht Hu. apply ahorro_nan; assumption. Qed.

Lemma no_capacity_gives_nan_witness :
  eficiencia_llenado
    (calcularMetricas
       (optimizarRutasBasico [ej_tienda "s1" 0] [ej_vehiculo "A" 0]) 1)
  = NaN
  /\ ahorro_potencial
       (calcularMetricas
          (optimizarRutasBasico [ej_tienda "s1" 0] [ej_vehiculo "A" 0]) 1)
     = NaN.
Proof.
  apply (no_capacity_gives_nan
           (optimizarRutasBasico [ej_tienda "s1" 0] [ej_vehiculo "A" 0]) 1).
  - vm_compute. reflexivity.
  - vm_compute. reflexivity.
Defined.


(** ** Stores of demand zero *)

Lemma asignar_todas_head (l : list tienda) :
  forall (h : ruta) (rest : list ruta),
    capacidad_usada h <= capacidad_maxima h ->
    exists h' rest',
      asignar_todas l (h :: rest) = h' :: rest'
      /\ capacidad_usada h' <= capacidad_maxima h'
      /\ vehiculo_de h' = vehiculo_de h
      /\ (forall s, In s (tiendas h) -> In s (tiendas h'))
      /\ (forall t, In t l -> combis_promedio t == 0 -> In t (tiendas h')).
Proof.
  induction l as [| u l IH]; intros h rest Hh.
  - exists h, rest. split; [reflexivity |]. split; [exact Hh |].
    split; [reflexivity |]. split; [tauto | intros t []].
  - change (asignar_todas (u :: l) (h :: rest))
      with (asignar_todas l (asignar u (h :: rest))).
    cbn [asignar]. destruct (cabe h u) eqn:E.
    + assert (Hh1 : capacidad_usada (cargar h u)
                    <= capacidad_maxima (cargar h u))
        by (unfold cabe in E; apply Qle_bool_iff in E; exact E).
      destruct (IH (cargar h u) rest Hh1)
        as (h' & rest' & Hrun & Hh' & Hv & Hmono & Hzero).
      exists h', rest'. split; [exact Hrun |]. split; [exact Hh' |].
      split; [rewrite Hv; reflexivity |]. split.
      * intros s Hs. apply Hmono. cbn [cargar tiendas].
        apply in_or_app. left. exact Hs.
      * intros t [-> | Ht] Hz; [| apply Hzero; assumption].
        apply Hmono. cbn [cargar tiendas].
        apply in_or_app. right. left. reflexivity.
    + destruct (IH h (asignar u rest) Hh)
        as (h' & rest' & Hrun & Hh' & Hv & Hmono & Hzero).
      exists h', rest'. split; [exact Hrun |]. split; [exact Hh' |].
      split; [exact Hv |]. split; [exact Hmono |].
      intros t [-> | Ht] Hz; [| apply Hzero; assumption].
      exfalso. unfold cabe in E.
      assert (Hle : capacidad_usada h + combis_promedio t
                    <= capacidad_maxima h) by (rewrite Hz; lra).
      apply Qle_bool_iff in Hle. congruence.
Qed.

(** X13.  When the first vehicle has a capacity that is not negative,
    every store of demand zero is assigned to the first vehicle, full or
    not, and the route of the first vehicle is the first route returned. *)
Theorem zero_demand_goes_to_first_vehicle (ts : list tienda) (v : vehiculo)
    (vs : list vehiculo) (t : tienda) :
  0 <= capacidad_combis v ->
  In t ts ->
  combis_promedio t == 0 ->
  exists r rest,
    optimizarRutasBasico ts (v :: vs) = r :: rest
    /\ vehiculo_de r = datos_vehiculo v
    /\ In t (tiendas r).
Proof.
  intros Hv Ht Hz. unfold optimizarRutasBasico, rutas_desde.
  cbn [List.map].
  destruct (asignar_todas_head (tiendasOrdenadas ts) (ruta_inicial v)
              (List.map ruta_inicial vs) Hv)
    as (h' & rest' & Hrun & _ & Hd & _ & Hzero).
  assert (Hin : In t (tiendas h')).
  { apply Hzero; [| exact Hz].
    eapply Permutation_in; [apply (array_sort_perm combis_promedio) |].
    exact Ht. }
  rewrite Hrun. cbn [List.filter].
  assert (En : no_vacia h' = true).
  { unfold no_vacia. destruct (tiendas h'); [contradiction | reflexivity]. }
  rewrite En. exists h', (List.filter no_vacia rest').
  split; [reflexivity |]. split; [exact Hd | exact Hin].
Qed.

Lemma zero_demand_goes_to_first_vehicle_witness :
  exists r rest,
    optimizarRutasBasico (ej_tiendas ++ [ej_tienda "s0" 0])
                         (ej_vehiculo "A" 10 :: [ej_vehiculo "B" 10])
    = r :: rest
    /\ vehiculo_de r = datos_vehiculo (ej_vehiculo "A" 10)
    /\ In (ej_tienda "s0" 0) (tiendas r).
Proof.
  apply (zero_demand_goes_to_first_vehicle
           (ej_tiendas ++ [ej_tienda "s0" 0]) (ej_vehiculo "A" 10)
           [ej_vehiculo "B" 10] (ej_tienda "s0" 0)).
  - cbn. lra.
  - cbn. tauto.
  - reflexivity.
Defined.

(** ** The order of the input matters through ties only *)

Lemma filter_distinct_keys {A : Type} (key : A -> Q) (k : Q) (l : list A) :
  ForallOrdPairs (fun a b => ~ key a == key b) l ->
  (List.length (List.filter (same_key key k) l) <= 1)%nat.
Proof.
  induction 1 as [| a l Ha Hl IH]; cbn [List.filter]; [cbn; lia |].
  destruct (same_key key k a) eqn:E; [| exact IH].
  assert (Hnil : List.filter (same_key key k) l = []).
  { rewrite List.Forall_forall in Ha.
    destruct (List.filter (same_key key k) l) as [| b rest] eqn:Ef;
      [reflexivity |].
    exfalso.
    assert (Hb : In b (List.filter (same_key key k) l))
      by (rewrite Ef; left; reflexivity).
    apply filter_In in Hb. destruct Hb as [Hb Eb].
    apply (Ha b Hb). unfold same_key in E, Eb.
    apply Qeq_bool_iff in E. apply Qeq_bool_iff in Eb.
    rewrite E, Eb. reflexivity. }
  rewrite Hnil. cbn. lia.
Qed.

Lemma filter_perm {A : Type} (p : A -> bool) (l l' : list A) :
  Permutation l l' -> Permutation (List.filter p l) (List.filter p l').
Proof.
  induction 1 as [| x l l' Hp IH | x y l | l l' l'' H1 IH1 H2 IH2];
    cbn [List.filter].
  - apply perm_nil.
  - destruct (p x); [apply perm_skip |]; exact IH.
  - destruct (p x), (p y);
      try apply perm_swap; apply Permutation_refl.
  - eapply perm_trans; eassumption.
Qed.

Lemma perm_short_eq {A : Type} (l l' : list A) :
  Permutation l l' -> (List.length l <= 1)%nat -> l = l'.
Proof.
  intros Hp Hlen.
  destruct l as [| a [| b l]]; cbn in Hlen; try lia.
  - symmetry. apply Permutation_nil. exact Hp.
  - symmetry. apply Permutation_length_1_inv. exact Hp.
Qed.

Lemma tiendasOrdenadas_perm_distinct (ts ts' : list tienda) :
  Permutation ts ts' ->
  ForallOrdPairs (fun a b => ~ combis_promedio a == combis_promedio b) ts ->
  tiendasOrdenadas ts = tiendasOrdenadas ts'.
Proof.
  intros Hp Hd.
  apply (stable_desc_sort_unique combis_promedio ts).
  - apply tiendasOrdenadas_contract.
  - destruct (tiendasOrdenadas_contract ts') as [Hp' Hs' Hf'].
    constructor.
    + eapply perm_trans; eassumption.
    + exact Hs'.
    + intros k. rewrite Hf'. symmetry.
      apply perm_short_eq; [apply filter_perm; exact Hp |].
      apply filter_distinct_keys. exact Hd.
Qed.

(** X14.  When no two stores have the same demand, the order in which the
    stores are given does not matter: any rearrangement of the input
    gives the same routes. *)
Theorem input_order_matters_through_ties_only (ts ts' : list tienda)
    (vs : list vehiculo) :
  Permutation ts ts' ->
  ForallOrdPairs (fun a b => ~ combis_promedio a == combis_promedio b) ts ->
  optimizarRutasBasico ts vs = optimizarRutasBasico ts' vs.
Proof.
  intros Hp Hd. unfold optimizarRutasBasico.
  rewrite (tiendasOrdenadas_perm_distinct ts ts' Hp Hd). reflexivity.
Qed.

Lemma input_order_matters_through_ties_only_witness :
  optimizarRutasBasico
    [ej_tienda "s1" 8; ej_tienda "s2" 5; ej_tienda "s4" 2] ej_vehiculos
  = optimizarRutasBasico
      [ej_tienda "s4" 2; ej_tienda "s1" 8; ej_tienda "s2" 5] ej_vehiculos.
Proof.
  apply (input_order_matters_through_ties_only
           [ej_tienda "s1" 8; ej_tienda "s2" 5; ej_tienda "s4" 2]
           [ej_tienda "s4" 2; ej_tienda "s1" 8; ej_tienda "s2" 5]
           ej_vehiculos).
  - eapply perm_trans; [apply perm_skip; apply perm_swap |].
    apply perm_swap.
  - repeat (constructor; [repeat constructor; cbn; intros H; discriminate H |]).
    constructor.
Defined.

(** ** The optimisation endpoint *)

Lemma length_zero_nil {A : Type} (l : list A) :
  Nat.eqb (List.length l) 0 = true <-> l = [].
Proof.
  destruct l; cbn; split; intros H; try reflexivity; discriminate H.
Qed.

(** X15.  Whatever the rows look like, the endpoint answers 500 exactly
    when a query fails, 400 exactly when both queries succeed and there is
    no vehicle or no store, and 200 in the remaining case, when there are
    both.  Only a 200 carries routes: those computed from the rows as
    they were received, with metrics whose total is the number of store
    rows; the other answers carry an error message. *)
Theorem optimizar_endpoint_answers
    {FilaVehiculo FilaTienda Rutas Metricas : Type}
    (optimizar : list FilaTienda -> list FilaVehiculo -> Rutas)
    (metricas_de_rutas : Rutas -> nat -> Metricas)
    (proveedor_id : option string)
    (vehiculosResult : option (list FilaVehiculo))
    (tiendasResult : option (list FilaTienda)) (ahora : string) :
  let r := api_optimizar optimizar metricas_de_rutas proveedor_id
             vehiculosResult tiendasResult ahora in
  (status r = 500%nat <-> vehiculosResult = None \/ tiendasResult = None)
  /\ (status r = 400%nat <->
      exists vs ts, vehiculosResult = Some vs /\ tiendasResult = Some ts
                    /\ (vs = [] \/ ts = []))
  /\ (status r = 200%nat <->
      exists vs ts, vehiculosResult = Some vs /\ tiendasResult = Some ts
                    /\ vs <> [] /\ ts <> [])
  /\ (forall vs ts,
         vehiculosResult = Some vs -> tiendasResult = Some ts ->
         vs <> [] -> ts <> [] ->
         body r = CuerpoOptimizacion (optimizar ts vs)
                    (metricas_de_rutas (optimizar ts vs) (List.length ts))
                    proveedor_id ahora)
  /\ (status r <> 200%nat -> exists e, body r = CuerpoError e).
Proof.
  cbv zeta. unfold api_optimizar.
  destruct vehiculosResult as [vs |], tiendasResult as [ts |].
  - destruct (Nat.eqb (List.length vs) 0) eqn:Ev;
      [| destruct (Nat.eqb (List.length ts) 0) eqn:Et];
      cbn [orb status body].
    + apply length_zero_nil in Ev.
      split; [split; [discriminate | intros [H | H]; discriminate H] |].
      split; [split; [intros _; exists vs, ts; auto |reflexivity] |].
      split; [split; [discriminate |] |].
      { intros (vs' & ts' & E1 & E2 & H1 & H2).
        injection E1 as <-. contradiction. }
      split; [| intros _; eexists; reflexivity].
      intros vs' ts' E1 E2 H1 H2. injection E1 as <-. contradiction.
    + apply length_zero_nil in Et.
      split; [split; [discriminate | intros [H | H]; discriminate H] |].
      split; [split; [intros _; exists vs, ts; auto |reflexivity] |].
      split; [split; [discriminate |] |].
      { intros (vs' & ts' & E1 & E2 & H1 & H2).
        injection E2 as <-. contradiction. }
      split; [| intros _; eexists; reflexivity].
      intros vs' ts' E1 E2 H1 H2. injection E2 as <-. contradiction.
    + assert (Hvs : vs <> [])
        by (intros H; apply length_zero_nil in H; congruence).
      assert (Hts : ts <> [])
        by (intros H; apply length_zero_nil in H; congruence).
      split; [split; [discriminate | intros [H | H]; discriminate H] |].
      split; [split; [discriminate |] |].
      { intros (vs' & ts' & E1 & E2 & [H | H]);
          [injection E1 as <- | injection E2 as <-]; contradiction. }
      split; [split; [intros _; exists vs, ts; auto | reflexivity] |].
      split; [| intros H; contradiction].
      intros vs' ts' E1 E2 _ _.
      injection E1 as <-. injection E2 as <-. reflexivity.
  - cbn [status body].
    split; [split; [auto | reflexivity] |].
    split; [split; [discriminate |] |].
    { intros (vs' & ts' & _ & E2 & _). discriminate E2. }
    split; [split; [discriminate |] |].
    { intros (vs' & ts' & _ & E2 & _). discriminate E2. }
    split; [| intros _; eexists; reflexivity].
    intros vs' ts' _ E2. discriminate E2.
  - cbn [status body].
    split; [split; [auto | reflexivity] |].
    split; [split; [discriminate |] |].
    { intros (vs' & ts' & E1 & _). discriminate E1. }
    split; [split; [discriminate |] |].
    { intros (vs' & ts' & E1 & _). discriminate E1. }
    split; [| intros _; eexists; reflexivity].
    intros vs' ts' E1. discriminate E1.
  - cbn [status body].
    split; [split; [auto | reflexivity] |].
    split; [split; [discriminate |] |].
    { intros (vs' & ts' & E1 & _). discriminate E1. }
    split; [split; [discriminate |] |].
    { intros (vs' & ts' & E1 & _). discriminate E1. }
    split; [| intros _; eexists; reflexivity].
    intros vs' ts' E1. discriminate E1.
Qed.

(** ** What the page shows *)

Lemma numero_o_cero_Some (q : Q) : numero_o_cero (Some q) == q.
Proof.
  unfold numero_o_cero. destruct (Qeq_bool q 0) eqn:E; [| reflexivity].
  apply Qeq_bool_iff in E. rewrite E. reflexivity.
Qed.



Lemma eficiencia_de_mostrada (r : ruta) :
  numero_o_cero (por_json (eficiencia_de r))
  == if Qeq_bool (capacidad_maxima r) 0 then 0
     else capacidad_usada r / capacidad_maxima r * 100.
Proof.
  unfold eficiencia_de, js_div.
  destruct (Qeq_bool (capacidad_maxima r) 0) eqn:E.
  - destruct (Qeq_bool (capacidad_usada r) 0); [reflexivity |].
    destruct (Qsign_nonneg (capacidad_usada r)); reflexivity.
  - cbn [js_mul por_json]. apply numero_o_cero_Some.
Qed.

Lemma optimizar_eficiencia_de (ts : list tienda) (vs : list vehiculo)
    (r : ruta) :
  In r (optimizarRutasBasico ts vs) -> eficiencia r = eficiencia_de r.
Proof.
  intros Hr. unfold optimizarRutasBasico in Hr.
  pose proof (rutas_desde_eficiencia (tiendasOrdenadas ts) vs) as He.
  pose proof (rutas_desde_no_vacia (tiendasOrdenadas ts) vs) as Hn.
  rewrite List.Forall_forall in *.
  destruct (He r Hr) as [E | E]; [exfalso; exact (Hn r Hr E) | exact E].
Qed.

(** X17.  For every route returned, the number that the page formats as
    the fill of the route is the one the server stored, the quotient of
    used load and capacity times 100, and it is 0 for a route of capacity
    zero: the [NaN] of the server reaches the page as [null] and is shown
    as 0. *)
Theorem shown_route_fill (ts : list tienda) (vs : list vehiculo) :
  Forall (fun r =>
            llenado_mostrado r
            == if Qeq_bool (capacidad_maxima r) 0 then 0
               else capacidad_usada r / capacidad_maxima r * 100)
         (optimizarRutasBasico ts vs).
Proof.
  apply List.Forall_forall. intros r Hr. unfold llenado_mostrado.
  rewrite (optimizar_eficiencia_de ts vs r Hr).
  apply eficiencia_de_mostrada.
Qed.

(** X18.  With demands that are not negative, the width of the bar of
    every route returned is the fill shown for the route, between 0 and
    100: [Math.min(100, ...)] never has to cut it. *)
Theorem bar_width_in_range (ts : list tienda) (vs : list vehiculo) :
  Forall (fun t => 0 <= combis_promedio t) ts ->
  Forall (fun r =>
            ancho_barra r == llenado_mostrado r
            /\ 0 <= ancho_barra r /\ ancho_barra r <= 100)
         (optimizarRutasBasico ts vs).
Proof.
  intros Hnn.
  pose proof (optimizar_used_nonneg ts vs Hnn) as H0.
  pose proof (optimizar_within ts vs) as H1.
  rewrite List.Forall_forall in *. intros r Hr.
  assert (Hl : 0 <= llenado_mostrado r /\ llenado_mostrado r <= 100).
  { unfold llenado_mostrado.
    rewrite (optimizar_eficiencia_de ts vs r Hr), eficiencia_de_mostrada.
    specialize (H0 r Hr). specialize (H1 r Hr).
    destruct (Qeq_bool (capacidad_maxima r) 0) eqn:E; [lra |].
    assert (Hc : 0 < capacidad_maxima r).
    { destruct (Qlt_le_dec 0 (capacidad_maxima r)) as [Hlt | Hle];
        [exact Hlt |].
      assert (Hz : capacidad_maxima r == 0) by lra.
      apply Qeq_bool_iff in Hz. congruence. }
    assert (Ha : 0 <= capacidad_usada r / capacidad_maxima r)
      by (apply Qle_shift_div_l; [exact Hc | lra]).
    assert (Hb : capacidad_usada r / capacidad_maxima r <= 1)
      by (apply Qle_shift_div_r; [exact Hc | lra]).
    set (x := capacidad_usada r / capacidad_maxima r) in *.
    split; lra. }
  assert (Hmin : ancho_barra r == llenado_mostrado r)
    by (unfold ancho_barra; apply Q.min_r; tauto).
  split; [exact Hmin |]. rewrite Hmin. exact Hl.
Qed.

Lemma bar_width_in_range_witness :
  Forall (fun r =>
            ancho_barra r == llenado_mostrado r
            /\ 0 <= ancho_barra r /\ ancho_barra r <= 100)
         (optimizarRutasBasico ej_desordenadas ej_vehiculos).
Proof.
  apply (bar_width_in_range ej_desordenadas ej_vehiculos).
  repeat constructor; cbn; lra.
Defined.

(** ** Activating a scenario *)

Lemma set_activo_twice (b b' : bool) (e : escenario) :
  set_activo b (set_activo b' e) = set_activo b e.
Proof. reflexivity. Qed.

Lemma activar_tabla (id : string) (tabla : list escenario) :
  fst (activar_donde_id id (desactivar_todos tabla))
  = List.map (fun e => set_activo (String.eqb (e_id e) id) e) tabla.
Proof.
  unfold activar_donde_id, desactivar_todos. cbn [fst].
  rewrite List.map_map. apply List.map_ext. intros e.
  cbn [set_activo e_id]. destruct (String.eqb (e_id e) id); reflexivity.
Qed.







Lemma head_activated (id : string) (tabla : list escenario) :
  In id (List.map e_id tabla) ->
  exists e,
    List.head (List.map (set_activo true)
                 (List.filter (fun e => String.eqb (e_id e) id)
                              (desactivar_todos tabla)))
    = Some e
    /\ e_id e = id /\ e_activo e = true
    /\ In e (fst (activar_donde_id id (desactivar_todos tabla))).
Proof.
  intros Hid. rewrite activar_tabla.
  induction tabla as [| e0 tabla IH]; [contradiction |].
  cbn [desactivar_todos List.map List.filter set_activo e_id].
  destruct (String.eqb (e_id e0) id) eqn:E.
  - cbn [List.map List.head]. eexists. split; [reflexivity |].
    apply String.eqb_eq in E. cbn [set_activo e_id e_activo].
    split; [exact E |]. split; [reflexivity |]. left. reflexivity.
  - destruct Hid as [Hid | Hid].
    + apply String.eqb_neq in E. contradiction.
    + destruct (IH Hid) as (e & He & Hi & Ha & Hin).
      exists e. split; [exact He |]. split; [exact Hi |].
      split; [exact Ha |]. right. exact Hin.
Qed.

(** X21.  When a scenario has the identifier asked for and both updates
    run, the endpoint answers 200 with a row that has that identifier, is
    active, and is a row of the table afterwards. *)
Theorem activating_a_known_scenario (id : string) (tabla : list escenario) :
  In id (List.map e_id tabla) ->
  exists tabla' e,
    api_activar_escenario id false false tabla
    = (tabla', 200%nat, CuerpoFila (Some e))
    /\ e_id e = id /\ e_activo e = true /\ In e tabla'.
Proof.
  intros Hid.
  destruct (head_activated id tabla Hid) as (e & He & Hi & Ha & Hin).
  unfold api_activar_escenario.
  unfold activar_donde_id in *. cbn [fst] in Hin.
  eexists. exists e. rewrite He.
  split; [reflexivity |]. split; [exact Hi |]. split; [exact Ha | exact Hin].
Qed.

Lemma activating_a_known_scenario_witness :
  exists tabla' e,
    api_activar_escenario "b" false false
      [ej_escenario "a" true; ej_escenario "b" false]
    = (tabla', 200%nat, CuerpoFila (Some e))
    /\ e_id e = "b"%string /\ e_activo e = true /\ In e tabla'.
Proof.
  apply (activating_a_known_scenario "b"
           [ej_escenario "a" true; ej_escenario "b" false]).
  cbn. tauto.
Defined.

(** ** The page: asking for an optimisation, uploading a file *)

Section PaginaFacts.
Context {Proveedores Vehiculos Resultado : Type}.
Implicit Types (s : estado Proveedores Vehiculos Resultado).

Lemma loadVehiculos_frame (r : resultado_fetch Vehiculos) s :
  loading (loadVehiculos r s) = loading s
  /\ uploadResult (loadVehiculos r s) = uploadResult s.
Proof.
  unfold loadVehiculos.
  destruct r as [message | st [message | data]]; cbn [apiCall];
    try destruct (response_ok st); cbn; split; reflexivity.
Qed.

Lemma loadProveedores_frame (r : resultado_fetch Proveedores) s :
  loading (loadProveedores r s) = false
  /\ uploadResult (loadProveedores r s) = uploadResult s.
Proof.
  unfold loadProveedores.
  destruct r as [message | st [message | data]]; cbn [apiCall];
    try destruct (response_ok st); cbn; split; reflexivity.
Qed.

(** X22.  After [optimizarRutas] the page is never left loading.  A
    response with a status from 200 to 299 whose body parses replaces the
    result and leaves an earlier error message in place.  Any other
    status keeps the result shown before and sets as error
    ["HTTP error! status: "] followed by the status: the body of the
    response, with the message of the server, is not read.  A request
    that gets no response keeps the result and sets the message of the
    failure. *)
Theorem optimizarRutas_outcomes (r : resultado_fetch Resultado) s :
  loading (optimizarRutas r s) = false
  /\ (forall st data,
         r = FetchRespuesta st (inr data) -> response_ok st = true ->
         optimizationResult (optimizarRutas r s) = Some data
         /\ error (optimizarRutas r s) = error s)
  /\ (forall st json,
         r = FetchRespuesta st json -> response_ok st = false ->
         optimizationResult (optimizarRutas r s) = optimizationResult s
         /\ error (optimizarRutas r s)
            = Some ("HTTP error! status: " ++ digitos st)%string)
  /\ (forall message,
         r = FetchRechazado message ->
         optimizationResult (optimizarRutas r s) = optimizationResult s
         /\ error (optimizarRutas r s) = Some message).
Proof.
  split; [| split; [| split]].
  - unfold optimizarRutas.
    destruct (apiCall r (setLoading true s)) as [[m | d] s']; reflexivity.
  - intros st data -> Hok. unfold optimizarRutas. cbn [apiCall].
    rewrite Hok. split; reflexivity.
  - intros st json -> Hok. unfold optimizarRutas. cbn [apiCall].
    rewrite Hok. split; reflexivity.
  - intros message ->. split; reflexivity.
Qed.

(** X23.  With a file selected, whenever the upload gets a response whose
    body parses, whatever its status, the body becomes the upload result
    and the page stops loading.  So for the body of an error answer,
    which has none of the three properties of a result, the note reads
    as a finished import of 0 vehicles and 0 stores with no error
    line. *)
Theorem upload_shows_any_body_as_finished (st : nat) (b : cuerpo_import)
    (rv : resultado_fetch Vehiculos) (rp : resultado_fetch Proveedores) s :
  let s' := handleFileUpload true (FetchRespuesta st (inr b)) rv rp s in
  uploadResult s' = Some b
  /\ loading s' = false
  /\ (vehiculos_importados b = None -> tiendas_importadas b = None ->
      errores b = None ->
      aviso (uploadResult s')
      = Some {| vehiculos_mostrados := 0;
                tiendas_mostradas := 0;
                linea_errores := None |}).
Proof.
  cbv zeta. unfold handleFileUpload.
  assert (Hu : uploadResult
                 (setLoading false
                    (loadProveedores rp
                       (loadVehiculos rv
                          (setUploadResult b (setLoading true s)))))
               = Some b).
  { cbn [setLoading uploadResult].
    rewrite (proj2 (loadProveedores_frame rp _)).
    rewrite (proj2 (loadVehiculos_frame rv _)). reflexivity. }
  split; [exact Hu |]. split; [reflexivity |].
  intros Hv Ht He. rewrite Hu. unfold aviso. rewrite Hv, Ht, He.
  reflexivity.
Qed.

End PaginaFacts.

Lemma upload_shows_any_body_as_finished_witness :
  aviso
    (uploadResult
       (handleFileUpload true
          (FetchRespuesta 500
             (inr {| vehiculos_importados := None;
                     tiendas_importadas := None;
                     errores := None;
                     error_import :=
                       Some "Error al importar archivo Excel"%string |}))
          (FetchRechazado "Failed to fetch")
          (FetchRechazado "Failed to fetch")
          {| proveedores := tt; vehiculos := tt;
             optimizationResult := @None unit; loading := false;
             error := None; uploadResult := None |}))
  = Some {| vehiculos_mostrados := 0;
            tiendas_mostradas := 0;
            linea_errores := None |}.
Proof.
  apply (upload_shows_any_body_as_finished (Proveedores := unit)
           (Vehiculos := unit) (Resultado := unit) 500
           {| vehiculos_importados := None;
              tiendas_importadas := None;
              errores := None;
              error_import :=
                Some "Error al importar archivo Excel"%string |});
    reflexivity.
Defined.
